(** * Admission control of the video downloader bot

    A shallow embedding of [rate_limiter.py] (TokenBucket, RateLimiter),
    [resource_manager.py] (ResourceManager) and of the admission path of
    [bot.py] (handle_message, download_tiktok_instagram), with the properties
    the specification states about them.

    Modelling conventions.
    - Python floats (token counts, timestamps, refill rates) are exact
      rationals [Q]; rounding, infinities and NaN are outside the model.
    - [time.time()] is an input: every function that reads the clock takes
      the reading as its argument [now]; functions that read it several
      times run in a small state monad that carries the clock.
    - Python dicts used as maps are [gmap]s; an exception is a value of
      [exn] returned in a sum.
    - A critical section guarded by [asyncio.Lock] contains no suspension
      point, so it is one atomic step of the model. *)

From Stdlib Require Import ZArith QArith Qminmax Qround Lia List.
From stdpp Require Import base decidable option list gmap fin_maps strings pretty.

Local Open Scope Z_scope.

(** ** rate_limiter.py : TokenBucket *)

Module TokenBucket.

Record t : Type := mk
  { capacity : Z;       (* self.capacity *)
    refill_rate : Q;    (* self.refill_rate *)
    tokens : Q;         (* self.tokens *)
    last_refill : Q }.  (* self.last_refill *)

(** [x >= y] on floats, as a boolean. *)
Definition Qgeb (x y : Q) : bool := Qle_bool y x.

(** [__init__]: [tokens = float(capacity)], [last_refill = time.time()]. *)
Definition init (now : Q) (capacity : Z) (refill_rate : Q) : t :=
  mk capacity refill_rate (inject_Z capacity) now.

(** [_refill]. *)
Definition _refill (now : Q) (b : t) : t :=
  let elapsed := (now - last_refill b)%Q in
  let tokens_to_add := (elapsed * refill_rate b)%Q in
  mk (capacity b) (refill_rate b)
     (Qmin (inject_Z (capacity b)) (tokens b + tokens_to_add)%Q)
     now.

(** [consume(tokens=n)]: the returned flag and the bucket afterwards. *)
Definition consume (now : Q) (n : Z) (b : t) : bool * t :=
  let b1 := _refill now b in
  if Qgeb (tokens b1) (inject_Z n)
  then (true, mk (capacity b1) (refill_rate b1)
                 (tokens b1 - inject_Z n)%Q (last_refill b1))
  else (false, b1).

(** [time_until_ready]. *)
Definition time_until_ready (now : Q) (b : t) : Q * t :=
  let b1 := _refill now b in
  if Qgeb (tokens b1) 1
  then (0%Q, b1)
  else let tokens_needed := (1 - tokens b1)%Q in
       ((tokens_needed / refill_rate b1)%Q, b1).

(** [reset]. *)
Definition reset (now : Q) (b : t) : t :=
  mk (capacity b) (refill_rate b) (inject_Z (capacity b)) now.

(** *** Sequences of calls on one bucket *)

(** The calls a client can make on a bucket. *)
Inductive call : Type :=
| Consume (n : Z)
| TimeUntilReady
| Reset.

(** One call at clock reading [now]: the bucket afterwards. *)
Definition exec (now : Q) (c : call) (b : t) : t :=
  match c with
  | Consume n => snd (consume now n b)
  | TimeUntilReady => snd (time_until_ready now b)
  | Reset => reset now b
  end.

(** The buckets after each call of a sequence of timed calls. *)
Fixpoint states (calls : list (Q * call)) (b : t) : list t :=
  match calls with
  | [] => []
  | (now, c) :: rest => let b1 := exec now c b in b1 :: states rest b1
  end.

(** The invariant of the data model: [0 <= tokens <= capacity]. *)
Definition within_capacity (b : t) : Prop :=
  (0 <= tokens b /\ tokens b <= inject_Z (capacity b))%Q.

(** The amount of a [consume] is not negative. *)
Definition nonneg_amount (c : call) : Prop :=
  match c with
  | Consume n => 0 <= n
  | _ => True
  end.

(** The amounts of the [consume] calls of a sequence are not negative. *)
Definition nonneg_amounts (calls : list (Q * call)) : Prop :=
  Forall (fun timed => nonneg_amount (snd timed)) calls.

(** No clock reading of the sequence is earlier than the bucket's
    [last_refill] at the time of the call. *)
Fixpoint no_earlier_reading (calls : list (Q * call)) (b : t) : Prop :=
  match calls with
  | [] => True
  | (now, c) :: rest =>
      (last_refill b <= now)%Q /\ no_earlier_reading rest (exec now c b)
  end.

End TokenBucket.

(** ** rate_limiter.py : RateLimiter *)

Module RateLimiter.

Record t : Type := mk
  { user_capacity : Z;                        (* self.user_capacity *)
    user_refill_rate : Q;                     (* self.user_refill_rate *)
    user_buckets : gmap Z TokenBucket.t;      (* self.user_buckets *)
    global_bucket : TokenBucket.t }.          (* self.global_bucket *)

(** The methods read [time.time()] several times in one call. The state of
    a call is the limiter together with the number of clock readings made
    so far; reading number [k] returns [time k]. *)
Record world : Type := World { ticks : nat; limiter : t }.

Definition M (A : Type) : Type := world -> A * world.

#[global] Instance M_ret : MRet M := fun A (a : A) w => (a, w).
#[global] Instance M_bind : MBind M := fun A B (k : A -> M B) (c : M A) w =>
  let (a, w1) := c w in k a w1.

Section WithClock.
Variable time : nat -> Q.

(** [time.time()] *)
Definition time_time : M Q :=
  fun w => (time (ticks w), World (S (ticks w)) (limiter w)).

Definition get : M t := fun w => (limiter w, w).
Definition put (rl : t) : M unit := fun w => (tt, World (ticks w) rl).

Definition set_global (g : TokenBucket.t) (rl : t) : t :=
  mk (user_capacity rl) (user_refill_rate rl) (user_buckets rl) g.
Definition set_buckets (m : gmap Z TokenBucket.t) (rl : t) : t :=
  mk (user_capacity rl) (user_refill_rate rl) m (global_bucket rl).

(** A method call on [self.global_bucket]: the method reads the clock
    once and mutates the bucket in place. *)
Definition on_global {A} (method : Q -> TokenBucket.t -> A * TokenBucket.t) : M A :=
  now ← time_time;
  rl ← get;
  let (r, g) := method now (global_bucket rl) in
  put (set_global g rl);;
  mret r.

(** [self.user_buckets[user_id]] on the defaultdict: a missing key is
    filled with [TokenBucket(user_capacity, user_refill_rate)], whose
    constructor reads the clock. *)
Definition user_buckets_getitem (user_id : Z) : M TokenBucket.t :=
  rl ← get;
  match user_buckets rl !! user_id with
  | Some b => mret b
  | None =>
      now ← time_time;
      let b := TokenBucket.init now (user_capacity rl) (user_refill_rate rl) in
      put (set_buckets (<[user_id := b]> (user_buckets rl)) rl);;
      mret b
  end.

(** A method call through the reference [user_bucket] obtained from
    [self.user_buckets[user_id]]: the object mutated is the one stored
    in the dict, so the entry is updated with it. *)
Definition on_user {A} (user_id : Z) (user_bucket : TokenBucket.t)
    (method : Q -> TokenBucket.t -> A * TokenBucket.t) : M (A * TokenBucket.t) :=
  now ← time_time;
  rl ← get;
  let (r, b) := method now user_bucket in
  put (set_buckets (<[user_id := b]> (user_buckets rl)) rl);;
  mret (r, b).

(** [check_limit] *)
Definition check_limit (user_id : Z) : M (bool * Q) :=
  ok ← on_global (fun now => TokenBucket.consume now 1);
  if negb ok then
    wait_time ← on_global TokenBucket.time_until_ready;
    mret (false, wait_time)
  else
    user_bucket ← user_buckets_getitem user_id;
    '(ok, user_bucket) ←
      on_user user_id user_bucket (fun now => TokenBucket.consume now 1);
    if negb ok then
      '(wait_time, _) ←
        on_user user_id user_bucket TokenBucket.time_until_ready;
      mret (false, wait_time)
    else mret (true, 0%Q).

(** [reset_user] *)
Definition reset_user (user_id : Z) : M unit :=
  rl ← get;
  match user_buckets rl !! user_id with
  | Some b =>
      on_user user_id b (fun now b => (tt, TokenBucket.reset now b));;
      mret tt
  | None => mret tt
  end.

(** [reset_global] *)
Definition reset_global : M unit :=
  on_global (fun now g => (tt, TokenBucket.reset now g)).

(** [get_user_status]: the dict with keys tokens, capacity, wait_time. *)
Definition get_user_status (user_id : Z) : M (Q * Z * Q) :=
  user_bucket ← user_buckets_getitem user_id;
  '(_, user_bucket) ←
    on_user user_id user_bucket (fun now b => (tt, TokenBucket._refill now b));
  let tokens := TokenBucket.tokens user_bucket in
  let capacity := TokenBucket.capacity user_bucket in
  '(wait_time, _) ←
    on_user user_id user_bucket TokenBucket.time_until_ready;
  mret (tokens, capacity, wait_time).

(** [current_time - bucket.last_refill > max_age] *)
Definition is_old (current_time max_age : Q) (bucket : TokenBucket.t) : bool :=
  negb (Qle_bool (current_time - TokenBucket.last_refill bucket)%Q max_age).

(** The list [users_to_remove] built by the first loop. *)
Definition users_to_remove (current_time max_age : Q)
    (buckets : gmap Z TokenBucket.t) : list Z :=
  (filter (fun kv => is_old current_time max_age kv.2 = true)
          (map_to_list buckets)).*1.

(** [cleanup_old_buckets] *)
Definition cleanup_old_buckets (max_age : Q) : M unit :=
  current_time ← time_time;
  rl ← get;
  let to_remove := users_to_remove current_time max_age (user_buckets rl) in
  put (set_buckets (foldl (fun m user_id => delete user_id m)
                          (user_buckets rl) to_remove) rl).

End WithClock.

(** [RateLimiter(user_capacity, user_refill_rate, global_capacity,
    global_refill_rate)]: the constructor reads the clock once, for the
    global bucket. *)
Definition init (now : Q) (user_capacity : Z) (user_refill_rate : Q)
    (global_capacity : Z) (global_refill_rate : Q) : t :=
  mk user_capacity user_refill_rate ∅
     (TokenBucket.init now global_capacity global_refill_rate).

(** [n] calls of [check_limit] for one user, one after the other: the
    answers in order. *)
Fixpoint requests (time : nat -> Q) (n : nat) (user_id : Z) (w : world)
    : list (bool * Q) :=
  match n with
  | O => []
  | S n' => let (answer, w1) := check_limit time user_id w in
            answer :: requests time n' user_id w1
  end.

End RateLimiter.

(** ** exceptions.py *)

(** The exception classes of the bot, each carrying its message;
    [PyException] stands for any exception that is not one of the bot's. *)
Inductive exn : Type :=
| BotException (msg : string)
| DownloadError (msg : string)
| ValidationError (msg : string)
| RateLimitError (msg : string)
| FileSizeError (msg : string)
| PlatformError (msg : string)
| TimeoutError (msg : string)
| ResourceError (msg : string)
| ConfigurationError (msg : string)
| PyException (msg : string).

(** The outcome of a call that may raise. *)
Inductive result (A : Type) : Type :=
| Ok (a : A)
| Raise (e : exn).
Arguments Ok {A} a.
Arguments Raise {A} e.

(** ** resource_manager.py : ResourceManager *)

Module ResourceManager.

Record t : Type := mk
  { max_concurrent_downloads : Z;       (* self.max_concurrent_downloads *)
    max_downloads_per_user : Z;         (* self.max_downloads_per_user *)
    active_downloads : gmap Z Z }.      (* self.active_downloads: task_id -> user_id *)

(** [__init__] *)
Definition init (max_concurrent_downloads max_downloads_per_user : Z) : t :=
  mk max_concurrent_downloads max_downloads_per_user ∅.

Definition set_active (m : gmap Z Z) (rm : t) : t :=
  mk (max_concurrent_downloads rm) (max_downloads_per_user rm) m.

(** A coroutine of the manager: it runs on the manager's state and returns
    a value or raises; the state it leaves is the state at that moment. *)
Definition M (A : Type) : Type := t -> result A * t.

#[global] Instance M_ret : MRet M := fun A (a : A) rm => (Ok a, rm).
#[global] Instance M_bind : MBind M := fun A B (k : A -> M B) (c : M A) rm =>
  match c rm with
  | (Ok a, rm1) => k a rm1
  | (Raise e, rm1) => (Raise e, rm1)
  end.

Definition raise {A} (e : exn) : M A := fun rm => (Raise e, rm).
Definition get : M t := fun rm => (Ok rm, rm).
Definition put (rm : t) : M unit := fun _ => (Ok tt, rm).

(** [try: body finally: fin]: [fin] runs however [body] ends; the outcome
    of [body] stands unless [fin] itself raises. *)
Definition try_finally {A} (body : M A) (fin : M unit) : M A :=
  fun rm =>
    let (r, rm1) := body rm in
    match fin rm1 with
    | (Ok _, rm2) => (r, rm2)
    | (Raise e, rm2) => (Raise e, rm2)
    end.

(** [len(self.active_downloads)] *)
Definition active_count (m : gmap Z Z) : Z := Z.of_nat (size m).

(** [sum(1 for uid in self.active_downloads.values() if uid == user_id)] *)
Definition user_active (user_id : Z) (m : gmap Z Z) : Z :=
  Z.of_nat (length (filter (fun uid => uid = user_id) (map_to_list m).*2)).

(** The two messages of [ResourceError]. *)
Definition server_busy_msg (active_count : Z) : string :=
  "Server is busy (" +:+ pretty active_count
    +:+ " active downloads). Please try again later.".
Definition user_busy_msg (user_active : Z) : string :=
  "You have " +:+ pretty user_active
    +:+ " active downloads. Please wait for them to complete.".

(** [download_slot], up to the [yield]: the block under [self._lock].
    [current_task] is [id(asyncio.current_task())]; the value returned is
    the local [task_id]. *)
Definition download_slot_acquire (current_task user_id : Z) : M Z :=
  rm ← get;
  let active_count := active_count (active_downloads rm) in
  if bool_decide (active_count >= max_concurrent_downloads rm) then
    raise (ResourceError (server_busy_msg active_count))
  else
    let user_active := user_active user_id (active_downloads rm) in
    if bool_decide (user_active >= max_downloads_per_user rm) then
      raise (ResourceError (user_busy_msg user_active))
    else
      let task_id := current_task in
      put (set_active (<[task_id := user_id]> (active_downloads rm)) rm);;
      mret task_id.

(** [download_slot], the [finally] block. *)
Definition download_slot_release (task_id : Z) : M unit :=
  rm ← get;
  if bool_decide (is_Some (active_downloads rm !! task_id)) then
    put (set_active (delete task_id (active_downloads rm)) rm)
  else mret tt.

(** [async with self.download_slot(user_id): body]. When the acquisition
    raises, the block is not entered. *)
Definition download_slot {A} (current_task user_id : Z) (body : M A) : M A :=
  task_id ← download_slot_acquire current_task user_id;
  try_finally body (download_slot_release task_id).

(** [get_status]: active_downloads, max_downloads, active_users,
    user_breakdown. *)
Definition get_status : M (Z * Z * Z * gmap Z Z) :=
  rm ← get;
  let active_count := active_count (active_downloads rm) in
  let user_counts :=
    foldl (fun (user_counts : gmap Z Z) user_id =>
             <[user_id := default 0 (user_counts !! user_id) + 1]> user_counts)
          ∅ (map_to_list (active_downloads rm)).*2 in
  mret (active_count, max_concurrent_downloads rm,
        Z.of_nat (size user_counts), user_counts).

(** [cancel_user_downloads] *)
Definition cancel_user_downloads (user_id : Z) : M Z :=
  rm ← get;
  let tasks_to_cancel :=
    (filter (fun kv => kv.2 = user_id) (map_to_list (active_downloads rm))).*1 in
  let '(m, cancelled) :=
    foldl (fun '(m, cancelled) task_id => (delete task_id m, cancelled + 1))
          (active_downloads rm, 0) tasks_to_cancel in
  put (set_active m rm);;
  mret cancelled.

(** [get_user_active_downloads] *)
Definition get_user_active_downloads (user_id : Z) : M Z :=
  rm ← get;
  mret (user_active user_id (active_downloads rm)).

(** *** The manager as a transition system *)

(** The critical sections of the manager. Each runs under [self._lock]
    without suspending, so each is one atomic step, and the states the
    manager goes through under any interleaving of tasks are the states
    along sequences of such steps. A release step is allowed for any task
    at any time, which covers the release of every slot acquired before. *)
Inductive op : Type :=
| Acquire (current_task user_id : Z)   (* download_slot up to the yield *)
| Release (task_id : Z)                (* the finally block of download_slot *)
| CancelUser (user_id : Z).            (* cancel_user_downloads *)

Definition step (o : op) (rm : t) : t :=
  match o with
  | Acquire current_task user_id =>
      snd (download_slot_acquire current_task user_id rm)
  | Release task_id => snd (download_slot_release task_id rm)
  | CancelUser user_id => snd (cancel_user_downloads user_id rm)
  end.

Definition run (ops : list op) (rm : t) : t :=
  foldl (fun rm o => step o rm) rm ops.

(** The invariant of the data model: both caps hold. *)
Definition within_caps (rm : t) : Prop :=
  active_count (active_downloads rm) <= max_concurrent_downloads rm /\
  forall u, user_active u (active_downloads rm) <= max_downloads_per_user rm.

End ResourceManager.

(** ** bot.py : the admission path of a text message *)

Module Bot.

(** *** validators.py : URLValidator *)

Inductive platform : Type := youtube | tiktok | instagram.

#[global] Instance platform_eq_dec : EqDecision platform.
Proof. solve_decision. Defined.

(** The fields of [urllib.parse.urlparse(url)] that the bot reads. *)
Record ParseResult : Type := mkParseResult
  { scheme : string; netloc : string; path : string; query : string }.

(** What [extract_info] of the extraction engine answers: the info dict
    (here only whether it is truthy), [yt_dlp.utils.DownloadError], or any
    other exception, given by the name of its type. *)
Inductive ydl_outcome : Type :=
| YdlInfo (truthy : bool)
| YdlDownloadError (error_msg : string)
| YdlException (type_name : string).

(** The collaborators of the handler that are not the bot's own code: the
    functions of Python's [re] and [urllib.parse], and the extraction engine
    with the file it leaves behind. *)
Record collaborators : Type := mkCollaborators
  { re_search : string -> string -> option string;
      (* re.search(pattern, text): group(0) of the match, if any *)
    re_match_ignorecase : string -> string -> bool;
      (* re.match(pattern, url, re.IGNORECASE) is a match *)
    urlparse : string -> result ParseResult;
    str_strip : string -> string;
    parse_qs : string -> list (string * list string);
    urlencode : list (string * list string) -> string;
    extract_info : string -> bool -> ydl_outcome;
      (* yt_dlp.YoutubeDL(ydl_opts).extract_info(url, download=...) *)
    downloaded_file_size : option Z }.
      (* find_downloaded_file(temp_dir), and get_file_size of that file *)

(** The part of [BotConfig] the path reads. *)
Record config : Type := mkConfig
  { max_file_size : Z; telegram_file_limit : Z }.

Definition exn_str (e : exn) : string :=
  match e with
  | BotException msg | DownloadError msg | ValidationError msg
  | RateLimitError msg | FileSizeError msg | PlatformError msg
  | TimeoutError msg | ResourceError msg | ConfigurationError msg
  | PyException msg => msg
  end.

Definition nonempty (s : string) : bool := negb (bool_decide (s = "")).

Definition PLATFORM_PATTERNS : list (platform * list string) :=
  [ (youtube,
     [ "(?:https?://)?(?:www\.)?youtube\.com/watch\?v=[\w-]+";
       "(?:https?://)?(?:www\.)?youtu\.be/[\w-]+";
       "(?:https?://)?(?:www\.)?youtube\.com/shorts/[\w-]+" ]);
    (tiktok,
     [ "(?:https?://)?(?:www\.|vm\.|vt\.|m\.|lite\.)?tiktok\.com/[\w@/-]+" ]);
    (instagram,
     [ "(?:https?://)?(?:www\.)?instagram\.com/(?:p|reel|stories)/[\w-]+" ]) ].

(** The pattern of [extract_url]; character 34 is the double quote. *)
Definition url_pattern : string :=
  "https?://[^\s<>" +:+ String (Ascii.ascii_of_nat 34) "{}|\\^`\[\]]+".

Section Handlers.
Variable lib : collaborators.
Variable cfg : config.
Variable time : nat -> Q.

(** The loop of [validate] over PLATFORM_PATTERNS: the first platform one
    of whose patterns matches. *)
Fixpoint detect_platform (patterns : list (platform * list string))
    (url : string) : option platform :=
  match patterns with
  | [] => None
  | (p, pats) :: rest =>
      if existsb (fun pattern => re_match_ignorecase lib pattern url) pats
      then Some p
      else detect_platform rest url
  end.

(** [URLValidator.validate]: (is_valid, platform, error_message). *)
Definition validate (url : string) : bool * option platform * option string :=
  if negb (nonempty url) then
    (false, None, Some "URL must be a non-empty string")
  else
    let url := str_strip lib url in
    if (2048 <? String.length url)%nat then
      (false, None, Some "URL too long (max 2048 characters)")
    else
      match urlparse lib url with
      | Raise e => (false, None, Some ("URL parsing error: " +:+ exn_str e))
      | Ok parsed =>
          if negb (nonempty (scheme parsed) && nonempty (netloc parsed)) then
            (false, None, Some "Invalid URL format - missing scheme or domain")
          else if negb (bool_decide (scheme parsed = "http")
                        || bool_decide (scheme parsed = "https")) then
            (false, None, Some "Only HTTP/HTTPS URLs are supported")
          else
            match detect_platform PLATFORM_PATTERNS url with
            | Some p => (true, Some p, None)
            | None =>
                (false, None,
                 Some "Unsupported platform. Supported: youtube, tiktok, instagram")
            end
      end.

(** [URLValidator.sanitize] *)
Definition sanitize (url : string) : string :=
  match urlparse lib url with
  | Raise _ => url
  | Ok parsed =>
      let clean_url := scheme parsed +:+ "://" +:+ netloc parsed +:+ path parsed in
      if nonempty (query parsed) then
        let essential_params := ["v"; "list"; "t"] in
        let query_dict := parse_qs lib (query parsed) in
        let filtered :=
          filter (fun kv => kv.1 ∈ essential_params) query_dict in
        match filtered with
        | [] => clean_url
        | _ => clean_url +:+ "?" +:+ urlencode lib filtered
        end
      else clean_url
  end.

(** [is_youtube_url], [is_tiktok_url] *)
Definition is_platform_url (p : platform) (url : string) : bool :=
  let '(is_valid, platform, _) := validate url in
  is_valid && bool_decide (platform = Some p).
Definition is_youtube_url : string -> bool := is_platform_url youtube.
Definition is_tiktok_url : string -> bool := is_platform_url tiktok.

(** [extract_url] *)
Definition extract_url (text : string) : option string :=
  if negb (nonempty text) then None else re_search lib url_pattern text.

(** *** What a handler does to the outside *)

(** The classes of messages shown to the user; their texts are cosmetic. *)
Inductive notice : Type :=
| WaitSeconds (seconds : Z)         (* rate limited: wait int(wait_time) s *)
| SendALink                         (* empty message *)
| NoLinkFound
| InvalidLink (error_msg : option string)
| Detected (platform_name : string) (* "... Detected", 0% *)
| LoadingStep (step : nat)
| QualityPreview (url : string)     (* YouTube: metadata and quality buttons *)
| QualityFallback (url : string)    (* YouTube: the basic quality buttons *)
| Downloading
| NoVideoInfo
| NoDownloadedFile
| FileTooLarge
| FileTooLargeForTelegram
| Sending
| VideoSent
| DownloadFailed (error_msg : string)
| DownloadCrashed (type_name : string).

(** The events of the admission flow, in the order they happen. No handler
    of bot.py acquires a slot, so [AcquireSlot] and [ReleaseSlot] occur in
    no trace of the handlers below; they are the events the flow of the
    specification has between the rate check and the download. *)
Inductive event : Type :=
| CheckLimit (user_id : Z) (allowed : bool)  (* rate_limiter.check_limit *)
| AcquireSlot (user_id : Z) (granted : bool) (* entering download_slot *)
| ReleaseSlot (user_id : Z)                  (* leaving download_slot *)
| ExtractInfo (url : string) (download : bool) (* the extraction engine *)
| Notify (n : notice).                       (* the messaging layer *)

(** The state a handler runs on: the module-level [rate_limiter] with its
    clock, the global resource manager, and the events so far. *)
Record world : Type := World
  { limiter : RateLimiter.world;
    manager : ResourceManager.t;
    trace : list event }.

Definition H (A : Type) : Type := world -> A * world.

#[global] Instance H_ret : MRet H := fun A (a : A) w => (a, w).
#[global] Instance H_bind : MBind H := fun A B (k : A -> H B) (c : H A) w =>
  let (a, w1) := c w in k a w1.

Definition emit (e : event) : H unit :=
  fun w => (tt, World (limiter w) (manager w) (trace w ++ [e])).

Definition notify (n : notice) : H unit := emit (Notify n).

(** [rate_limiter.check_limit(user_id)] on the module-level limiter. *)
Definition rate_limiter_check_limit (user_id : Z) : H (bool * Q) :=
  fun w =>
    let (answer, rl) := RateLimiter.check_limit time user_id (limiter w) in
    (answer, World rl (manager w) (trace w ++ [CheckLimit user_id (fst answer)])).

(** [ydl.extract_info(url, download=...)] *)
Definition ydl_extract_info (url : string) (download : bool) : H ydl_outcome :=
  emit (ExtractInfo url download);;
  mret (extract_info lib url download).

(** Python's [int(x)] on a float: truncation towards zero. *)
Definition int_of_float (x : Q) : Z := Z.quot (Qnum x) (Z.pos (Qden x)).

(** The messages of the loading animation. *)
Fixpoint loading_steps (n : nat) (k : nat) : H unit :=
  match n with
  | O => mret tt
  | S n' => notify (LoadingStep k);; loading_steps n' (S k)
  end.

(** [download_tiktok_instagram]. The edits of the progress task, which run
    beside the download, are not recorded. *)
Definition download_tiktok_instagram (user_id : Z) (url : string) : H unit :=
  let platform := if is_tiktok_url url then "TikTok" else "Instagram" in
  notify (Detected platform);;
  loading_steps 3 1;;
  notify Downloading;;
  info ← ydl_extract_info url true;
  match info with
  | YdlInfo false => notify NoVideoInfo
  | YdlInfo true =>
      match downloaded_file_size lib with
      | None => notify NoDownloadedFile
      | Some file_size =>
          if bool_decide (file_size > max_file_size cfg) then
            notify FileTooLarge
          else if bool_decide (file_size > telegram_file_limit cfg) then
            notify FileTooLargeForTelegram
          else
            notify Sending;;
            notify VideoSent
      end
  | YdlDownloadError error_msg => notify (DownloadFailed error_msg)
  | YdlException type_name => notify (DownloadCrashed type_name)
  end.

(** The YouTube branch of [handle_message]: metadata only, then the
    quality buttons; the download itself starts from a button press. *)
Definition youtube_quality_menu (url : string) : H unit :=
  notify (Detected "YouTube");;
  loading_steps 4 1;;
  info ← ydl_extract_info url false;
  match info with
  | YdlInfo true => notify (QualityPreview url)
  | _ => notify (QualityFallback url)
  end.

(** [handle_message], for the sender [user_id] of the text [message_text]. *)
Definition handle_message (user_id : Z) (message_text : string) : H unit :=
  '(allowed, wait_time) ← rate_limiter_check_limit user_id;
  if negb allowed then
    notify (WaitSeconds (int_of_float wait_time))
  else if negb (nonempty message_text)
          || bool_decide (String.length (str_strip lib message_text) = 0%nat) then
    notify SendALink
  else
    match extract_url message_text with
    | None => notify NoLinkFound
    | Some url =>
        let '(is_valid, platform, error_msg) := validate url in
        if negb is_valid then
          notify (InvalidLink error_msg)
        else
          let url := sanitize url in
          if is_youtube_url url then youtube_quality_menu url
          else download_tiktok_instagram user_id url
    end.

(** The events of one request, on a limiter [rl] whose clock has been read
    [k] times and a manager [rm]. *)
Definition request (user_id : Z) (message_text : string)
    (k : nat) (rl : RateLimiter.t) (rm : ResourceManager.t) : world :=
  snd (handle_message user_id message_text
         (World (RateLimiter.World k rl) rm [])).

End Handlers.

(** *** The admission flow, as properties of a trace *)

Definition is_download (e : event) : bool :=
  match e with ExtractInfo _ true => true | _ => false end.

Definition is_slot_event (e : event) : bool :=
  match e with AcquireSlot _ _ | ReleaseSlot _ => true | _ => false end.

(** The flow of the specification: a download happens only after the rate
    check has allowed the request and while a slot granted after that is
    held. [passed] and [held] are what the events so far have
    established. *)
Fixpoint follows_admission_flow (passed held : bool) (tr : list event) : bool :=
  match tr with
  | [] => true
  | CheckLimit _ allowed :: rest => follows_admission_flow allowed false rest
  | AcquireSlot _ granted :: rest =>
      passed && follows_admission_flow passed granted rest
  | ReleaseSlot _ :: rest => follows_admission_flow passed false rest
  | ExtractInfo _ true :: rest =>
      passed && held && follows_admission_flow passed held rest
  | _ :: rest => follows_admission_flow passed held rest
  end.

(** The flow without the slot: a download happens only after the rate
    check has allowed the request. *)
Fixpoint downloads_after_rate_check (passed : bool) (tr : list event) : bool :=
  match tr with
  | [] => true
  | CheckLimit _ allowed :: rest => downloads_after_rate_check allowed rest
  | ExtractInfo _ true :: rest =>
      passed && downloads_after_rate_check passed rest
  | _ :: rest => downloads_after_rate_check passed rest
  end.

(** An event that is neither a rate check nor a slot event. *)
Definition after_check (e : event) : bool :=
  match e with
  | CheckLimit _ _ | AcquireSlot _ _ | ReleaseSlot _ => false
  | _ => true
  end.

(** A handler step that only appends such events to the trace and leaves
    the limiter and the manager alone. *)
Definition appends {A : Type} (c : H A) : Prop :=
  forall w, exists es,
    forallb after_check es = true /\
    snd (c w) = World (limiter w) (manager w) (trace w ++ es).

(** *** A TikTok link on a fresh bot *)

Definition tiktok_link : string := "https://www.tiktok.com/@user/video/1".

Definition tiktok_pattern : string :=
  "(?:https?://)?(?:www\.|vm\.|vt\.|m\.|lite\.)?tiktok\.com/[\w@/-]+".

(** The answers of the library functions on [tiktok_link], and an engine
    that downloads a file of 1 MB. *)
Definition tiktok_run : collaborators :=
  {| re_search := fun pattern text =>
       if bool_decide (text = tiktok_link) then Some tiktok_link else None;
     re_match_ignorecase := fun pattern url =>
       bool_decide (pattern = tiktok_pattern) && bool_decide (url = tiktok_link);
     urlparse := fun url =>
       Ok (mkParseResult "https" "www.tiktok.com" "/@user/video/1" "");
     str_strip := fun s => s;
     parse_qs := fun _ => [];
     urlencode := fun _ => "";
     extract_info := fun _ _ => YdlInfo true;
     downloaded_file_size := Some 1048576 |}.

(** The limits of [BotConfig]: 200 MB, and 50 MB for Telegram. *)
Definition default_config : config := mkConfig 209715200 (50 * 1024 * 1024).

(** The limiter of bot.py with the default settings: 5 requests per 10 s
    for a user, created at time 0. *)
Definition default_limiter : RateLimiter.t :=
  RateLimiter.init 0 5 (1 / 10) 100 1.

End Bot.

(** ** Further vocabulary for the limiter and the manager *)

Module TokenBucketExt.
Import TokenBucket.

(** [k] calls of [consume()] one after the other, all at the clock reading
    [now]: the answers in order. *)
Fixpoint consume_burst (now : Q) (k : nat) (b : t) : list bool :=
  match k with
  | O => []
  | S k' => let (ok, b1) := consume now 1 b in ok :: consume_burst now k' b1
  end.

End TokenBucketExt.

Module RateLimiterExt.
Import RateLimiter.

(** The second half of [check_limit], after the global bucket has been
    consumed at reading [k]: the number of the clock reading at which the
    user's bucket is consumed, and the bucket it is consumed from. A user who
    has no bucket gets a new one, created at reading [k + 1]. *)
Definition user_turn (time : nat -> Q) (k : nat) (user_id : Z) (rl : t)
    : nat * TokenBucket.t :=
  match user_buckets rl !! user_id with
  | Some b => (S k, b)
  | None =>
      (S (S k),
       TokenBucket.init (time (S k)) (user_capacity rl) (user_refill_rate rl))
  end.

(** The clock never goes back. *)
Definition monotone (time : nat -> Q) : Prop :=
  forall i, (time i <= time (S i))%Q.

(** A bucket in good order at clock reading [now]: tokens within
    [0, capacity], a refill rate that is not negative, and a last refill
    that is not in the future. *)
Definition bucket_ok (now : Q) (b : TokenBucket.t) : Prop :=
  TokenBucket.within_capacity b /\
  (0 <= TokenBucket.refill_rate b)%Q /\
  (TokenBucket.last_refill b <= now)%Q.

(** A limiter in good order after [ticks w] clock readings: the settings
    for new buckets are not negative and every bucket is in good order at
    the latest reading. *)
Definition limiter_ok (time : nat -> Q) (w : world) : Prop :=
  0 <= user_capacity (limiter w) /\
  (0 <= user_refill_rate (limiter w))%Q /\
  bucket_ok (time (pred (ticks w))) (global_bucket (limiter w)) /\
  forall u b, user_buckets (limiter w) !! u = Some b ->
              bucket_ok (time (pred (ticks w))) b.

(** The requests of a list of users, served one after the other. *)
Definition serve (time : nat -> Q) (users : list Z) (w : world) : world :=
  foldl (fun w user_id => snd (check_limit time user_id w)) w users.

End RateLimiterExt.

Module ResourceManagerExt.
Import ResourceManager.

(** Acquisitions made one after the other, none released in between, each
    request a pair (task, user): which of them were granted, and the
    manager at the end. *)
Fixpoint acquire_each (requests : list (Z * Z)) (rm : t) : list bool * t :=
  match requests with
  | [] => ([], rm)
  | (current_task, user_id) :: rest =>
      let (r, rm1) := download_slot_acquire current_task user_id rm in
      let (granted, rm2) := acquire_each rest rm1 in
      (match r with Ok _ => true | Raise _ => false end :: granted, rm2)
  end.

(** The body of the loop of [get_status] that counts the downloads of each
    user. *)
Definition count_step (user_counts : gmap Z Z) (user_id : Z) : gmap Z Z :=
  <[user_id := default 0 (user_counts !! user_id) + 1]> user_counts.

End ResourceManagerExt.

Module BotExt.
Import Bot.

(** An event in which the extraction engine is contacted. *)
Definition is_engine_event (e : event) : bool :=
  match e with ExtractInfo _ _ => true | _ => false end.

(** The event of the video being handed to the messaging layer. *)
Definition is_video_sent (e : event) : bool :=
  match e with Notify VideoSent => true | _ => false end.

(** [is_instagram_url], [is_valid_url] *)
Definition is_instagram_url (lib : collaborators) : string -> bool :=
  is_platform_url lib instagram.

Definition is_valid_url (lib : collaborators) (url : string) : bool :=
  if negb (nonempty url) then false
  else fst (fst (validate lib url)).

(** *** A YouTube link *)

Definition youtube_link : string := "https://www.youtube.com/watch?v=dQw4w9WgXcQ".

Definition youtube_watch_pattern : string :=
  "(?:https?://)?(?:www\.)?youtube\.com/watch\?v=[\w-]+".

(** The answers of the library functions on [youtube_link]. *)
Definition youtube_run : collaborators :=
  {| re_search := fun pattern text =>
       if bool_decide (text = youtube_link) then Some youtube_link else None;
     re_match_ignorecase := fun pattern url =>
       bool_decide (pattern = youtube_watch_pattern)
       && bool_decide (url = youtube_link);
     urlparse := fun url =>
       Ok (mkParseResult "https" "www.youtube.com" "/watch" "v=dQw4w9WgXcQ");
     str_strip := fun s => s;
     parse_qs := fun _ => [("v", ["dQw4w9WgXcQ"])];
     urlencode := fun _ => "v=dQw4w9WgXcQ";
     extract_info := fun _ _ => YdlInfo true;
     downloaded_file_size := None |}.

(** *** A YouTube link with the parameter name in upper case *)



End BotExt.

(** ** utils.py *)

Module Utils.

(** *** async_retry *)

(** What raising [last_exception] does when the loop never ran and it is
    still [None]. *)
Definition raise_none : exn :=
  PyException "TypeError: exceptions must derive from BaseException".

Section Retry.
Context {A : Type}.
Variable max_attempts : Z.
Variable delay backoff : Q.
Variable retryable : exn -> bool.   (* isinstance(e, exceptions) *)
Variable func : nat -> result A.    (* the outcome of the call number i *)

(** The outcome of [wrapper], the delays it slept in order, and the number
    of calls of [func] it made. *)
Record retry_run : Type := RetryRun
  { outcome : result A; sleeps : list Q; calls : nat }.

(** The [for attempt in range(max_attempts)] loop from [attempt] on, with
    [remaining] iterations to go. *)
Fixpoint retry_loop (remaining attempt : nat) (current_delay : Q)
    (last_exception : option exn) : retry_run :=
  match remaining with
  | O =>
      RetryRun (Raise (default raise_none last_exception)) [] 0
  | S remaining' =>
      match func attempt with
      | Ok a => RetryRun (Ok a) [] 1
      | Raise e =>
          if retryable e then
            if bool_decide (Z.of_nat attempt < max_attempts - 1) then
              let r := retry_loop remaining' (S attempt)
                                  (current_delay * backoff)%Q (Some e) in
              RetryRun (outcome r) (current_delay :: sleeps r) (S (calls r))
            else
              let r := retry_loop remaining' (S attempt) current_delay (Some e) in
              RetryRun (outcome r) (sleeps r) (S (calls r))
          else RetryRun (Raise e) [] 1
      end
  end.

(** The call fails with an exception that is retried. *)
Definition fails_retryably (r : result A) : Prop :=
  exists e, r = Raise e /\ retryable e = true.

(** [wrapper] of [async_retry(max_attempts, delay, backoff, exceptions)]. *)
Definition async_retry : retry_run :=
  retry_loop (Z.to_nat max_attempts) 0 delay None.

(** The delays of an exponential backoff: [n] delays from [d] on. *)
Fixpoint backoff_delays (n : nat) (d : Q) : list Q :=
  match n with
  | O => []
  | S n' => d :: backoff_delays n' (d * backoff)%Q
  end.

End Retry.

(** *** find_downloaded_file, get_file_size *)

(** A directory entry as the functions see it: its name, whether
    [os.path.isfile] holds, and what [os.path.getsize] gives ([None] when
    it raises OSError). *)
Record dir_entry : Type := DirEntry
  { entry_name : string; entry_is_file : bool; entry_getsize : option Z }.

(** What the path [temp_dir] is: missing, not a directory, a directory that
    cannot be listed (os.listdir raises OSError), or a directory with its
    entries in the order [os.listdir] gives them. *)
Inductive dir_state : Type :=
| Missing
| NotADirectory
| Unreadable
| Listing (files : list dir_entry).

(** [get_file_size] of an entry that exists. *)
Definition get_file_size (e : dir_entry) : Z :=
  default 0 (entry_getsize e).

(** [file.endswith(suffix)] *)
Definition ends_with (suffix s : string) : bool :=
  let n := String.length s in
  let k := String.length suffix in
  (k <=? n)%nat && String.eqb (String.substring (n - k) k s) suffix.

(** The default [extensions]. *)
Definition default_extensions : list string :=
  [".mp4"; ".webm"; ".mkv"; ".m4a"; ".mp3"].

(** An entry that [find_downloaded_file] accepts: a name with one of the
    extensions, a regular file, and a size above 0. *)
Definition acceptable (extensions : list string) (file : dir_entry) : bool :=
  existsb (fun ext => ends_with ext (entry_name file)) extensions
  && entry_is_file file
  && bool_decide (get_file_size file > 0).

Section FindFile.
Variable path_join : string -> string -> string.   (* os.path.join *)

(** The loop over [files]. *)
Fixpoint first_valid_file (temp_dir : string) (extensions : list string)
    (files : list dir_entry) : option string :=
  match files with
  | [] => None
  | file :: rest =>
      if existsb (fun ext => ends_with ext (entry_name file)) extensions then
        let filepath := path_join temp_dir (entry_name file) in
        if entry_is_file file then
          let size := get_file_size file in
          if bool_decide (size > 0) then Some filepath
          else first_valid_file temp_dir extensions rest
        else first_valid_file temp_dir extensions rest
      else first_valid_file temp_dir extensions rest
  end.

(** [find_downloaded_file] *)
Definition find_downloaded_file (temp_dir : string) (state : dir_state)
    (extensions : list string) : option string :=
  match state with
  | Missing => None
  | NotADirectory => None
  | Unreadable => None
  | Listing files => first_valid_file temp_dir extensions files
  end.

End FindFile.

End Utils.

(** ** validators.py : InputSanitizer *)

Module InputSanitizer.

(** A Python [str] is the list of its Unicode code points, so that [len],
    slices and [ord] are what they are in Python. *)

(** [s[:k]]; a negative [k] counts from the end. *)
Definition slice_to (s : list N) (k : Z) : list N :=
  if bool_decide (0 <= k) then take (Z.to_nat k) s
  else take (Z.to_nat (Z.of_nat (length s) + k)) s.

(** [s.replace(old, new)] for single characters. *)
Definition replace_char (old new : N) (s : list N) : list N :=
  (fun c => if (c =? old)%N then new else c) <$> s.

(** [s.lstrip(chars)] and [s.strip(chars)]. *)
Fixpoint lstrip (chars : list N) (s : list N) : list N :=
  match s with
  | [] => []
  | c :: rest => if bool_decide (c ∈ chars) then lstrip chars rest else s
  end.

Definition strip (chars : list N) (s : list N) : list N :=
  reverse (lstrip chars (reverse (lstrip chars s))).

(** The pieces of [s.split('.', 1)]: what is before the first '.', and
    what is after it, when there is one. *)
Fixpoint split_dot (s : list N) : option (list N * list N) :=
  match s with
  | [] => None
  | c :: rest =>
      if (c =? 46)%N then Some ([], rest)
      else match split_dot rest with
           | Some (before, after) => Some (c :: before, after)
           | None => None
           end
  end.

(** [s.rsplit('.', 1) if '.' in s else (s, '')] *)
Definition rsplit_dot (s : list N) : list N * list N :=
  match split_dot (reverse s) with
  | Some (rev_ext, rev_name) => (reverse rev_name, reverse rev_ext)
  | None => (s, [])
  end.

(** The strings of three dots and of the word download. *)
Definition dots : list N := [46; 46; 46]%N.
Definition download : list N := [100; 111; 119; 110; 108; 111; 97; 100]%N.

(** [sanitize_text] *)
Definition sanitize_text (text : list N) (max_length : Z) : list N :=
  match text with
  | [] => []
  | _ =>
      let text := filter (fun c => c <> 0%N) text in
      let text := filter (fun c => (32 <= c)%N \/ c = 10%N \/ c = 9%N) text in
      if bool_decide (Z.of_nat (length text) > max_length)
      then slice_to text (max_length - 3) ++ dots
      else text
  end.

Section Filename.
(** The class [\s] of [re] for str patterns. *)
Variable is_space : N -> bool.

(** [re.sub(r'[\s_]+', '_', s)]: every maximal run of whitespace and
    underscores becomes one underscore. [in_run] tells that the character
    before was part of a run. *)
Fixpoint collapse_runs (in_run : bool) (s : list N) : list N :=
  match s with
  | [] => []
  | c :: rest =>
      if is_space c || (c =? 95)%N then
        if in_run then collapse_runs true rest
        else 95%N :: collapse_runs true rest
      else c :: collapse_runs false rest
  end.

(** The value of [invalid_chars]: less-than, greater-than, colon, double
    quote, bar, question mark and asterisk. *)
Definition invalid_chars : list N := [60; 62; 58; 34; 124; 63; 42]%N.

(** [sanitize_filename] *)
Definition sanitize_filename (filename : list N) (max_length : Z) : list N :=
  match filename with
  | [] => download
  | _ =>
      let filename := replace_char 92 95 (replace_char 47 95 filename) in
      let filename := filter (fun c => (32 <= c)%N) filename in
      let filename := strip [46; 32]%N filename in
      let filename := collapse_runs false filename in
      let filename :=
        foldl (fun s char => replace_char char 95 s) filename invalid_chars in
      let filename :=
        if bool_decide (Z.of_nat (length filename) > max_length) then
          let '(name, ext) := rsplit_dot filename in
          let max_name_length := max_length - Z.of_nat (length ext) - 1 in
          slice_to name max_name_length
            ++ (match ext with [] => [] | _ => 46%N :: ext end)
        else filename in
      match filename with
      | [] => download
      | [46%N] => download
      | _ => filename
      end
  end.

End Filename.

(** What the checks of [sanitize_filename] leave in a file name: a code
    point of 32 or above that is not a slash (47), a backslash (92) or one
    of the seven characters of [invalid_chars]. Only code points below 32
    count as control characters there: DEL (127) passes. *)
Definition allowed_in_filename (c : N) : bool :=
  (32 <=? c)%N
  && negb (bool_decide (c ∈ [47; 92; 60; 62; 58; 34; 124; 63; 42]%N)).

(** A code point of 32 or above that is not a path separator. *)
Definition no_separator (c : N) : Prop :=
  (32 <= c)%N /\ c <> 47%N /\ c <> 92%N.

(** What the filter of [sanitize_text] keeps: a code point of 32 or above,
    newline (10) or tab (9). DEL (127) and U+0080 to U+009F are kept. *)
Definition kept_in_text (c : N) : bool :=
  (32 <=? c)%N || (c =? 10)%N || (c =? 9)%N.

End InputSanitizer.

(** ** bot.py : DownloadProgress, create_progress_bar *)

Module Progress.

(** A value of the dict that yt-dlp passes to the hook: [None] or a
    number. *)
Inductive py_num : Type :=
| PyNone
| PyNum (x : Q).

(** The dict [d]; a field is [None] when the key is missing. *)
Record hook_dict : Type := HookDict
  { d_status : option string;
    d_downloaded_bytes : option py_num;
    d_total_bytes : option py_num;
    d_total_bytes_estimate : option py_num;
    d_speed : option py_num;
    d_eta : option py_num }.

Record t : Type := mk
  { last_update : Z;
    downloaded : py_num;
    total : py_num;
    speed : py_num;
    eta : py_num;
    percent : Q;
    status : string }.

(** [__init__] *)
Definition init : t :=
  mk 0 (PyNum 0) (PyNum 0) (PyNum 0) (PyNum 0) 0 "starting".

(** [d.get(key, default)] and [d.get(key)] *)
Definition get_default (field : option py_num) (default : py_num) : py_num :=
  match field with Some v => v | None => default end.
Definition get (field : option py_num) : py_num := get_default field PyNone.

(** Truth value of [None] or a number, and [x or y]. *)
Definition truthy (v : py_num) : bool :=
  match v with PyNone => false | PyNum x => negb (Qeq_bool x 0) end.
Definition py_or (x y : py_num) : py_num := if truthy x then x else y.

(** [progress_hook]. A comparison or a division with [None] raises
    TypeError, a missing 'status' raises KeyError; both are caught by the
    handler of the method, which leaves the fields as they are by then. *)
Definition progress_hook (d : hook_dict) (p : t) : t :=
  match d_status d with
  | None => p
  | Some st =>
      if String.eqb st "downloading" then
        let downloaded := get_default (d_downloaded_bytes d) (PyNum 0) in
        let total :=
          py_or (get (d_total_bytes d))
                (get_default (d_total_bytes_estimate d) (PyNum 0)) in
        let speed := py_or (get_default (d_speed d) (PyNum 0)) (PyNum 0) in
        let eta := py_or (get_default (d_eta d) (PyNum 0)) (PyNum 0) in
        let p1 := mk (last_update p) downloaded total speed eta (percent p)
                     "downloading" in
        match total with
        | PyNone => p1
        | PyNum total_bytes =>
            if negb (Qle_bool total_bytes 0) then
              match downloaded with
              | PyNone => p1
              | PyNum downloaded_bytes =>
                  mk (last_update p) downloaded total speed eta
                     (Qmin 100 (Qmax 0 ((downloaded_bytes / total_bytes) * 100)))
                     "downloading"
              end
            else
              mk (last_update p) downloaded total speed eta 0 "downloading"
        end
      else if String.eqb st "finished" then
        mk (last_update p) (downloaded p) (total p) (speed p) (eta p) 100
           "finished"
      else p
  end.

(** A percentage between 0 and 100. *)
Definition in_percent_range (x : Q) : Prop := (0 <= x /\ x <= 100)%Q.

(** The progress after a sequence of hook calls. *)
Definition after_hooks (ds : list hook_dict) : t :=
  foldl (fun p d => progress_hook d p) init ds.

(** The two cells of the bar: the green and the white square. *)
Definition green : N := 129001%N.
Definition white : N := 11036%N.

(** [c * n] for a one-character string: empty when [n] is not positive. *)
Definition py_repeat (c : N) (n : Z) : list N := repeat c (Z.to_nat n).

(** [create_progress_bar] *)
Definition create_progress_bar (percent : Q) (length : Z) : list N :=
  let filled := Bot.int_of_float (inject_Z length * percent / 100)%Q in
  py_repeat green filled ++ py_repeat white (length - filled).

End Progress.

(** * Properties of TokenBucket *)

Module TokenBucketFacts.
Import TokenBucket.

Local Open Scope Q_scope.

Lemma Qgeb_true (x y : Q) : Qgeb x y = true <-> y <= x.
Proof. unfold Qgeb. apply Qle_bool_iff. Qed.

Lemma Qgeb_false (x y : Q) : Qgeb x y = false <-> x < y.
Proof.
  unfold Qgeb. split.
  - intros Hb. apply Qnot_le_lt. intros Hle.
    apply Qle_bool_iff in Hle. congruence.
  - intros Hlt. destruct (Qle_bool y x) eqn:Hb; [|reflexivity].
    apply Qle_bool_iff in Hb. exfalso. exact (Qlt_not_le _ _ Hlt Hb).
Qed.

Lemma capacity_nonneg (b : t) : within_capacity b -> 0 <= inject_Z (capacity b).
Proof. intros [H0 Hc]. eapply Qle_trans; eassumption. Qed.

Lemma refill_rate_exec now c b : refill_rate (exec now c b) = refill_rate b.
Proof.
  destruct c as [n| |]; simpl; unfold consume, time_until_ready; simpl;
    try reflexivity.
  - destruct (Qgeb _ _); reflexivity.
  - destruct (Qgeb _ _); reflexivity.
Qed.

Lemma _refill_within now b :
  within_capacity b -> 0 <= refill_rate b -> last_refill b <= now ->
  within_capacity (_refill now b).
Proof.
  intros Hb Hr Ht. pose proof (capacity_nonneg b Hb) as Hcap.
  destruct Hb as [H0 Hc]. unfold within_capacity, _refill; simpl. split.
  - apply Q.min_glb; [exact Hcap|].
    assert (0 <= (now - last_refill b) * refill_rate b) as Hadd.
    { apply Qmult_le_0_compat; [|exact Hr].
      unfold Qminus. rewrite <- (Qplus_opp_r (last_refill b)).
      apply Qplus_le_compat; [exact Ht | apply Qle_refl]. }
    rewrite <- (Qplus_0_r 0). apply Qplus_le_compat; assumption.
  - apply Q.le_min_l.
Qed.

Lemma exec_within now c b :
  within_capacity b -> 0 <= refill_rate b -> last_refill b <= now ->
  nonneg_amount c -> within_capacity (exec now c b).
Proof.
  intros Hb Hr Ht Hn.
  pose proof (_refill_within now b Hb Hr Ht) as [H0 Hc].
  destruct c as [n| |]; simpl.
  - unfold consume.
    destruct (Qgeb (tokens (_refill now b)) (inject_Z n)) eqn:Hge; simpl.
    + apply Qgeb_true in Hge. simpl in Hn.
      assert (0 <= inject_Z n) as Hn'.
      { change 0 with (inject_Z 0). rewrite <- Zle_Qle. exact Hn. }
      split; simpl.
      * unfold Qminus. rewrite <- (Qplus_opp_r (inject_Z n)).
        apply Qplus_le_compat; [exact Hge | apply Qle_refl].
      * eapply Qle_trans; [|exact Hc].
        rewrite <- (Qplus_0_r (tokens (_refill now b))) at 1.
        unfold Qminus. apply Qplus_le_compat; [apply Qle_refl|].
        apply (Qopp_le_compat 0 (inject_Z n)). exact Hn'.
    + split; assumption.
  - unfold time_until_ready.
    destruct (Qgeb _ _); simpl; split; assumption.
  - unfold reset. split; simpl.
    + exact (capacity_nonneg b Hb).
    + apply Qle_refl.
Qed.

Lemma init_within now cap rate :
  (0 <= cap)%Z -> within_capacity (init now cap rate).
Proof.
  intros Hcap. unfold within_capacity, init; simpl. split.
  - change 0 with (inject_Z 0). rewrite <- Zle_Qle. exact Hcap.
  - apply Qle_refl.
Qed.

Lemma capacity_exec now c b : capacity (exec now c b) = capacity b.
Proof.
  destruct c as [n| |]; simpl; unfold consume, time_until_ready; simpl;
    try reflexivity.
  - destruct (Qgeb _ _); reflexivity.
  - destruct (Qgeb _ _); reflexivity.
Qed.

(** Whatever the clock reading, a call leaves at most [capacity] tokens:
    [_refill] takes the minimum with the capacity, and an amount that is not
    negative only lowers the count. *)
Lemma exec_at_most_capacity now c b :
  nonneg_amount c -> tokens (exec now c b) <= inject_Z (capacity (exec now c b)).
Proof.
  intros Hn. rewrite capacity_exec.
  assert (tokens (_refill now b) <= inject_Z (capacity b)) as Hc
    by (unfold _refill; simpl; apply Q.le_min_l).
  destruct c as [n| |]; simpl.
  - unfold consume.
    destruct (Qgeb (tokens (_refill now b)) (inject_Z n)); simpl; [|exact Hc].
    simpl in Hn.
    assert (0 <= inject_Z n) as Hn'.
    { change 0 with (inject_Z 0). rewrite <- Zle_Qle. exact Hn. }
    eapply Qle_trans; [|exact Hc].
    rewrite <- (Qplus_0_r (tokens (_refill now b))) at 1.
    unfold Qminus. apply Qplus_le_compat; [apply Qle_refl|].
    apply (Qopp_le_compat 0 (inject_Z n)). exact Hn'.
  - unfold time_until_ready. destruct (Qgeb _ _); simpl; exact Hc.
  - apply Qle_refl.
Qed.

(** With a capacity and a refill rate that are not negative and a clock
    reading that is not earlier than [last_refill], a call leaves a count
    that is not negative; the amount of a [consume] does not matter, since
    [consume] takes only what is there. *)
Lemma exec_not_negative now c b :
  0 <= tokens b -> (0 <= capacity b)%Z -> 0 <= refill_rate b ->
  last_refill b <= now -> 0 <= tokens (exec now c b).
Proof.
  intros H0 Hcap Hr Ht.
  assert (0 <= inject_Z (capacity b)) as Hcap'.
  { change 0 with (inject_Z 0). rewrite <- Zle_Qle. exact Hcap. }
  assert (0 <= tokens (_refill now b)) as Hrefill.
  { unfold _refill; simpl. apply Q.min_glb; [exact Hcap'|].
    assert (0 <= (now - last_refill b) * refill_rate b) as Hadd.
    { apply Qmult_le_0_compat; [|exact Hr].
      unfold Qminus. rewrite <- (Qplus_opp_r (last_refill b)).
      apply Qplus_le_compat; [exact Ht | apply Qle_refl]. }
    rewrite <- (Qplus_0_r 0). apply Qplus_le_compat; assumption. }
  destruct c as [n| |]; simpl.
  - unfold consume.
    destruct (Qgeb (tokens (_refill now b)) (inject_Z n)) eqn:Hge; simpl;
      [|exact Hrefill].
    apply Qgeb_true in Hge.
    unfold Qminus. rewrite <- (Qplus_opp_r (inject_Z n)).
    apply Qplus_le_compat; [exact Hge | apply Qle_refl].
  - unfold time_until_ready. destruct (Qgeb _ _); simpl; exact Hrefill.
  - exact Hcap'.
Qed.

Lemma states_at_most_capacity calls : forall b,
  nonneg_amounts calls ->
  Forall (fun b1 => tokens b1 <= inject_Z (capacity b1)) (states calls b).
Proof.
  induction calls as [|[now c] rest IH]; intros b Hn; simpl.
  - constructor.
  - apply Forall_cons in Hn as [Hc Hrest]. constructor.
    + apply exec_at_most_capacity. exact Hc.
    + apply IH. exact Hrest.
Qed.

Lemma states_not_negative calls : forall b,
  0 <= tokens b -> (0 <= capacity b)%Z -> 0 <= refill_rate b ->
  no_earlier_reading calls b ->
  Forall (fun b1 => 0 <= tokens b1) (states calls b).
Proof.
  induction calls as [|[now c] rest IH]; intros b H0 Hcap Hr Hs; simpl.
  - constructor.
  - destruct Hs as (Ht & Hrest).
    pose proof (exec_not_negative now c b H0 Hcap Hr Ht) as H1.
    constructor; [exact H1|].
    apply IH; [exact H1 | rewrite capacity_exec; exact Hcap
              | rewrite refill_rate_exec; exact Hr | exact Hrest].
Qed.

(** C6, as the code has it. [_refill] takes [elapsed = now - last_refill]
    as it is, without clamping it to 0. For every bucket and every sequence
    of consume, time_until_ready and reset calls at arbitrary clock
    readings, clock skew included, whose consume amounts are not negative,
    the token count is at most the capacity after every call. When moreover
    the bucket was created with a capacity and a refill rate that are not
    negative and no clock reading is earlier than the bucket's last_refill,
    the token count is at least 0 after every call, whatever the
    amounts. *)
Theorem tokens_bounds_without_clamp
    (t0 : Q) (cap : Z) (rate : Q) (calls : list (Q * call)) :
  (nonneg_amounts calls ->
   Forall (fun b => tokens b <= inject_Z (capacity b))
          (states calls (init t0 cap rate))) /\
  ((0 <= cap)%Z -> 0 <= rate -> no_earlier_reading calls (init t0 cap rate) ->
   Forall (fun b => 0 <= tokens b) (states calls (init t0 cap rate))).
Proof.
  split.
  - apply states_at_most_capacity.
  - intros Hcap Hrate Hs. apply states_not_negative; simpl.
    + change 0 with (inject_Z 0). rewrite <- Zle_Qle. exact Hcap.
    + exact Hcap.
    + exact Hrate.
    + exact Hs.
Qed.

(** A skewed sequence stays below the capacity; a sequence without skew
    stays at or above 0. *)
Lemma tokens_bounds_without_clamp_witness :
  Forall (fun b => tokens b <= inject_Z (capacity b))
    (states [(90, Consume 1); (80, TimeUntilReady); (105, Reset); (70, Consume 2)]
            (init 100 5 1)) /\
  Forall (fun b => 0 <= tokens b)
    (states [(100, Consume 1); (101, TimeUntilReady); (105, Reset); (105, Consume 2)]
            (init 100 5 1)).
Proof.
  split.
  - apply (proj1 (tokens_bounds_without_clamp 100 5 1
      [(90, Consume 1); (80, TimeUntilReady); (105, Reset); (70, Consume 2)])).
    repeat constructor; simpl; lia.
  - apply (proj2 (tokens_bounds_without_clamp 100 5 1
      [(100, Consume 1); (101, TimeUntilReady); (105, Reset); (105, Consume 2)])).
    + lia.
    + unfold Qle; simpl; lia.
    + simpl. repeat split; unfold Qle; simpl; lia.
Defined.

(** C6 as stated fails. Under clock skew the lower bound fails: a bucket of
    capacity 5 created at time 100 and asked to consume one token at time
    90 refills with [elapsed = -10] and is left with -5 tokens. The same
    happens without skew to a bucket with a negative refill rate, and a
    bucket created with a negative capacity is below 0 from the start and
    after a reset. The upper bound fails only for a negative amount:
    [consume(-1)] on a full bucket leaves capacity + 1 tokens. *)
Lemma token_bounds_fail_as_stated :
  (let b := exec 90 (Consume 1) (init 100 5 1) in
   90 - last_refill (init 100 5 1) < 0 /\
   tokens b == -5 /\ ~ within_capacity b) /\
  (let b := exec 110 (Consume 1) (init 100 5 (-1)) in
   tokens b == -5 /\ ~ within_capacity b) /\
  (let b := exec 100 Reset (init 100 (-1) 1) in
   tokens b == -1 /\ ~ within_capacity b) /\
  (let b := exec 100 (Consume (-1)) (init 100 5 1) in
   tokens b == 6 /\ ~ within_capacity b).
Proof.
  simpl. repeat split; try reflexivity.
  - intros [H0 _]. vm_compute in H0. apply H0. reflexivity.
  - intros [H0 _]. vm_compute in H0. apply H0. reflexivity.
  - intros [H0 _]. vm_compute in H0. apply H0. reflexivity.
  - intros [_ Hc]. vm_compute in Hc. apply Hc. reflexivity.
Qed.

(** C8. With a positive refill rate, [time_until_ready] returns 0 when the
    refilled token count is at least 1, and otherwise the value
    [(1 - tokens) / refill_rate], which is strictly positive. *)
Theorem time_until_ready_value (now : Q) (b : t) :
  0 < refill_rate b ->
  let b1 := _refill now b in
  (1 <= tokens b1 -> fst (time_until_ready now b) = 0) /\
  (tokens b1 < 1 ->
     fst (time_until_ready now b) = (1 - tokens b1) / refill_rate b /\
     0 < fst (time_until_ready now b)).
Proof.
  intros Hr b1. unfold time_until_ready. fold b1. split.
  - intros Hge. apply Qgeb_true in Hge. rewrite Hge. reflexivity.
  - intros Hlt. pose proof Hlt as Hb. apply Qgeb_false in Hb. rewrite Hb.
    simpl. split; [reflexivity|].
    apply Qlt_shift_div_l; [exact Hr|].
    rewrite Qmult_0_l. unfold Qminus.
    rewrite <- (Qplus_opp_r (tokens b1)).
    apply Qplus_lt_le_compat; [exact Hlt | apply Qle_refl].
Qed.

Lemma time_until_ready_value_witness :
  let b := mk 5 (1 # 10) (1 # 4) 100 in
  let b1 := _refill 102 b in
  (1 <= tokens b1 -> fst (time_until_ready 102 b) = 0) /\
  (tokens b1 < 1 ->
     fst (time_until_ready 102 b) = (1 - tokens b1) / refill_rate b /\
     0 < fst (time_until_ready 102 b)).
Proof.
  apply (time_until_ready_value 102 (mk 5 (1 # 10) (1 # 4) 100)).
  reflexivity.
Defined.

End TokenBucketFacts.

(** * Properties of RateLimiter *)

Module RateLimiterFacts.
Import RateLimiter.

Section CheckLimit.
Variable time : nat -> Q.

(** What [check_limit] does when the global bucket denies. *)
Lemma check_limit_global_denied (k : nat) (user_id : Z) (rl : t) :
  fst (TokenBucket.consume (time k) 1 (global_bucket rl)) = false ->
  check_limit time user_id (World k rl) =
    let g1 := snd (TokenBucket.consume (time k) 1 (global_bucket rl)) in
    let (wait_time, g2) := TokenBucket.time_until_ready (time (S k)) g1 in
    ((false, wait_time), World (S (S k)) (set_global g2 rl)).
Proof.
  intros Hden. unfold check_limit, on_global, mbind, M_bind, mret, M_ret,
    time_time, get, put; simpl.
  destruct (TokenBucket.consume (time k) 1 (global_bucket rl)) as [ok g1] eqn:Hc.
  simpl in Hden. subst ok. simpl.
  destruct (TokenBucket.time_until_ready (time (S k)) g1) as [wt g2] eqn:Hw.
  reflexivity.
Qed.

(** C4. When the global bucket denies, [check_limit] answers "denied" and
    the map of per-user buckets is exactly as before the call: the entry of
    [user_id] keeps its bucket, or stays absent. *)
Theorem global_denial_leaves_user_buckets (k : nat) (user_id : Z) (rl : t) :
  fst (TokenBucket.consume (time k) 1 (global_bucket rl)) = false ->
  let '(answer, w) := check_limit time user_id (World k rl) in
  fst answer = false /\
  user_buckets (limiter w) = user_buckets rl /\
  user_buckets (limiter w) !! user_id = user_buckets rl !! user_id.
Proof.
  intros Hden. rewrite (check_limit_global_denied k user_id rl Hden). simpl.
  destruct (TokenBucket.time_until_ready _ _) as [wt g2]. simpl.
  repeat split; reflexivity.
Qed.

(** Once the global bucket allows the request, the global bucket that
    [check_limit] leaves is the one left by that [consume], whatever the
    user's bucket answers. *)
Lemma check_limit_global_allowed (k : nat) (user_id : Z) (rl : t) :
  fst (TokenBucket.consume (time k) 1 (global_bucket rl)) = true ->
  global_bucket (limiter (snd (check_limit time user_id (World k rl)))) =
    snd (TokenBucket.consume (time k) 1 (global_bucket rl)).
Proof.
  intros Hpass. unfold check_limit, on_global, user_buckets_getitem, on_user,
    mbind, M_bind, mret, M_ret, time_time, get, put; simpl.
  destruct (TokenBucket.consume (time k) 1 (global_bucket rl)) as [ok g1] eqn:Hc.
  simpl in Hpass. subst ok. simpl.
  destruct (user_buckets rl !! user_id) as [b|]; simpl.
  - destruct (TokenBucket.consume (time (S k)) 1 b) as [ok ub]; simpl.
    destruct ok; simpl; [reflexivity|].
    destruct (TokenBucket.time_until_ready _ ub); reflexivity.
  - destruct (TokenBucket.consume (time (S (S k))) 1 _) as [ok ub]; simpl.
    destruct ok; simpl; [reflexivity|].
    destruct (TokenBucket.time_until_ready _ ub); reflexivity.
Qed.

(** C5. When the global bucket allows the request and the user's bucket
    then denies, the global bucket is left with its refilled token count
    minus one: the token taken from it is not given back. *)
Theorem user_denial_keeps_global_token_spent (k : nat) (user_id : Z) (rl : t) :
  fst (TokenBucket.consume (time k) 1 (global_bucket rl)) = true ->
  fst (fst (check_limit time user_id (World k rl))) = false ->
  TokenBucket.tokens
    (global_bucket (limiter (snd (check_limit time user_id (World k rl))))) =
  (TokenBucket.tokens (TokenBucket._refill (time k) (global_bucket rl)) - 1)%Q.
Proof.
  intros Hpass _. rewrite (check_limit_global_allowed k user_id rl Hpass).
  unfold TokenBucket.consume in *.
  destruct (TokenBucket.Qgeb _ _); [reflexivity | discriminate Hpass].
Qed.

End CheckLimit.

(** A limiter with one token per user, all clock readings at time 0; the
    first request of user 7 is allowed and empties the bucket of user 7. *)
Lemma global_denial_leaves_user_buckets_witness :
  let time := fun _ : nat => 0%Q in
  let rl := mk 1 (1 # 10) {[ 7 := TokenBucket.mk 1 (1 # 10) 1 0 ]}
               (TokenBucket.mk 100 1 0 0) in
  let '(answer, w) := check_limit time 7 (World 0 rl) in
  fst answer = false /\
  user_buckets (limiter w) = user_buckets rl /\
  user_buckets (limiter w) !! 7 = user_buckets rl !! 7.
Proof.
  apply (global_denial_leaves_user_buckets (fun _ : nat => 0%Q) 0%nat 7
           (mk 1 (1 # 10) {[ 7 := TokenBucket.mk 1 (1 # 10) 1 0 ]}
               (TokenBucket.mk 100 1 0 0))).
  reflexivity.
Defined.

Lemma user_denial_keeps_global_token_spent_witness :
  let time := fun _ : nat => 0%Q in
  let rl := mk 1 (1 # 10) {[ 7 := TokenBucket.mk 1 (1 # 10) 0 0 ]}
               (TokenBucket.mk 100 1 100 0) in
  fst (fst (check_limit time 7 (World 0 rl))) = false /\
  TokenBucket.tokens
    (global_bucket (limiter (snd (check_limit time 7 (World 0 rl))))) =
  (TokenBucket.tokens (TokenBucket._refill (time 0%nat) (global_bucket rl)) - 1)%Q.
Proof.
  split; [reflexivity|].
  apply (user_denial_keeps_global_token_spent (fun _ : nat => 0%Q) 0%nat 7
           (mk 1 (1 # 10) {[ 7 := TokenBucket.mk 1 (1 # 10) 0 0 ]}
               (TokenBucket.mk 100 1 100 0))); reflexivity.
Defined.

(** *** cleanup_old_buckets *)

Lemma lookup_foldl_delete {V} (l : list Z) : forall (m : gmap Z V) (u : Z),
  foldl (fun m user_id => delete user_id m) m l !! u =
    if decide (u ∈ l) then None else m !! u.
Proof.
  induction l as [|x l IH]; intros m u.
  - simpl foldl. destruct (decide (u ∈ [])) as [Hin|_]; [|reflexivity].
    exfalso. exact (not_elem_of_nil u Hin).
  - simpl foldl. rewrite IH.
    destruct (decide (u ∈ l)) as [Hin|Hnin];
      destruct (decide (u ∈ x :: l)) as [Hin'|Hnin']; try reflexivity.
    + exfalso. apply Hnin'. apply elem_of_cons. by right.
    + apply elem_of_cons in Hin' as [->|Hin']; [|contradiction].
      apply lookup_delete_eq.
    + apply lookup_delete_ne. intros ->. apply Hnin'. apply elem_of_cons. by left.
Qed.

Lemma elem_of_users_to_remove (now max_age : Q) (m : gmap Z TokenBucket.t) (u : Z) :
  u ∈ users_to_remove now max_age m <->
  exists b, m !! u = Some b /\ is_old now max_age b = true.
Proof.
  unfold users_to_remove. rewrite list_elem_of_fmap. split.
  - intros [[u' b] [-> Hin]]. apply list_elem_of_filter in Hin as [Hold Hin].
    apply elem_of_map_to_list in Hin. exists b. auto.
  - intros [b [Hlk Hold]]. exists (u, b). split; [reflexivity|].
    apply list_elem_of_filter. split; [exact Hold|].
    apply elem_of_map_to_list. exact Hlk.
Qed.

(** The buckets after [cleanup_old_buckets]: an entry stays exactly when
    its bucket is not old. *)
Lemma lookup_cleanup_old_buckets (time : nat -> Q) (k : nat) (max_age : Q)
    (rl : t) (u : Z) :
  user_buckets (limiter (snd (cleanup_old_buckets time max_age (World k rl)))) !! u =
    match user_buckets rl !! u with
    | Some b => if is_old (time k) max_age b then None else Some b
    | None => None
    end.
Proof.
  unfold cleanup_old_buckets, mbind, M_bind, time_time, get, put; simpl.
  rewrite lookup_foldl_delete.
  destruct (decide (u ∈ users_to_remove (time k) max_age (user_buckets rl)))
    as [Hin|Hnin].
  - apply elem_of_users_to_remove in Hin as [b [Hlk Hold]].
    rewrite Hlk, Hold. reflexivity.
  - destruct (user_buckets rl !! u) as [b|] eqn:Hlk; [|reflexivity].
    destruct (is_old (time k) max_age b) eqn:Hold; [|reflexivity].
    exfalso. apply Hnin. apply elem_of_users_to_remove. eauto.
Qed.

Lemma is_old_true (now max_age : Q) (b : TokenBucket.t) :
  is_old now max_age b = true <-> (max_age < now - TokenBucket.last_refill b)%Q.
Proof.
  unfold is_old. rewrite negb_true_iff. split.
  - intros Hb. apply Qnot_le_lt. intros Hle.
    apply Qle_bool_iff in Hle. congruence.
  - intros Hlt. destruct (Qle_bool _ _) eqn:Hb; [|reflexivity].
    apply Qle_bool_iff in Hb. exfalso. exact (Qlt_not_le _ _ Hlt Hb).
Qed.

Lemma is_old_false (now max_age : Q) (b : TokenBucket.t) :
  is_old now max_age b = false <-> (now - TokenBucket.last_refill b <= max_age)%Q.
Proof.
  unfold is_old. rewrite negb_false_iff. apply Qle_bool_iff.
Qed.

Lemma Qlt_minus_pos (x y : Q) : (x < y)%Q <-> (0 < y - x)%Q.
Proof.
  split; intros H.
  - unfold Qminus. rewrite <- (Qplus_opp_r x).
    apply Qplus_lt_le_compat; [exact H | apply Qle_refl].
  - apply (Qplus_lt_l _ _ (- x)%Q). rewrite Qplus_opp_r. exact H.
Qed.

(** C9, as the code has it. A bucket is removed when
    [current_time - last_refill > max_age], a strict comparison. With
    [max_age = 0] every bucket whose last_refill is earlier than the current
    time is removed and every other bucket is kept, so the map is emptied
    when all buckets have been idle for a positive time. With a [max_age]
    that is at least every bucket's idle time no bucket is removed. *)
Theorem cleanup_old_buckets_extremes (time : nat -> Q) (k : nat) (rl : t) :
  let now := time k in
  let after max_age :=
    user_buckets (limiter (snd (cleanup_old_buckets time max_age (World k rl)))) in
  (forall u b, user_buckets rl !! u = Some b ->
     (TokenBucket.last_refill b < now)%Q -> after 0%Q !! u = None) /\
  (forall u b, user_buckets rl !! u = Some b ->
     (now <= TokenBucket.last_refill b)%Q -> after 0%Q !! u = Some b) /\
  ((forall u b, user_buckets rl !! u = Some b ->
      (TokenBucket.last_refill b < now)%Q) -> after 0%Q = ∅) /\
  (forall max_age,
     (forall u b, user_buckets rl !! u = Some b ->
        (now - TokenBucket.last_refill b <= max_age)%Q) ->
     after max_age = user_buckets rl).
Proof.
  intros now after. unfold after. repeat split.
  - intros u b Hlk Hlt. rewrite lookup_cleanup_old_buckets, Hlk.
    apply Qlt_minus_pos in Hlt. apply is_old_true in Hlt.
    fold now. rewrite Hlt. reflexivity.
  - intros u b Hlk Hle. rewrite lookup_cleanup_old_buckets, Hlk.
    assert (is_old now 0 b = false) as Hold.
    { apply is_old_false. apply Qnot_lt_le. intros Hpos.
      apply Qlt_minus_pos in Hpos. exact (Qlt_not_le _ _ Hpos Hle). }
    fold now. rewrite Hold. reflexivity.
  - intros Hall. apply map_eq. intros u.
    rewrite lookup_cleanup_old_buckets, lookup_empty.
    destruct (user_buckets rl !! u) as [b|] eqn:Hlk; [|reflexivity].
    pose proof (Hall u b Hlk) as Hlt.
    apply Qlt_minus_pos in Hlt. apply is_old_true in Hlt.
    fold now. rewrite Hlt. reflexivity.
  - intros max_age Hall. apply map_eq. intros u.
    rewrite lookup_cleanup_old_buckets.
    destruct (user_buckets rl !! u) as [b|] eqn:Hlk; [|reflexivity].
    pose proof (Hall u b Hlk) as Hle. apply is_old_false in Hle.
    fold now. rewrite Hle. reflexivity.
Qed.

Lemma cleanup_old_buckets_extremes_witness :
  let time := fun _ : nat => 50%Q in
  let rl := mk 5 (1 # 10) {[ 7 := TokenBucket.mk 5 (1 # 10) 4 10 ]}
               (TokenBucket.mk 100 1 100 0) in
  user_buckets (limiter (snd (cleanup_old_buckets time 0 (World 0 rl)))) = ∅ /\
  user_buckets (limiter (snd (cleanup_old_buckets time 3600 (World 0 rl))))
    = user_buckets rl.
Proof.
  intros time rl.
  destruct (cleanup_old_buckets_extremes time 0%nat rl) as (_ & _ & Hzero & Hlarge).
  split.
  - apply Hzero. intros u b Hlk. simpl in Hlk.
    apply lookup_singleton_Some in Hlk as [_ <-]. reflexivity.
  - apply Hlarge. intros u b Hlk. simpl in Hlk.
    apply lookup_singleton_Some in Hlk as [_ <-]. discriminate.
Defined.

(** C9 as stated fails for a bucket that was touched at the current clock
    reading: its idle time is 0, which is not greater than [max_age = 0],
    and the bucket stays. Here user 7 is allowed at time 50 and the sweep
    runs at time 50. *)
Lemma cleanup_zero_age_keeps_fresh_bucket :
  let time := fun _ : nat => 50%Q in
  let w1 := snd (check_limit time 7 (World 0 (init 0 5 (1 # 10) 100 1))) in
  is_Some (user_buckets (limiter w1) !! 7) /\
  is_Some (user_buckets
             (limiter (snd (cleanup_old_buckets time 0 w1))) !! 7).
Proof.
  split; vm_compute; eexists; reflexivity.
Qed.

(** TEST 5 of test_bot.py: three tokens per user, five requests in a row
    with no time passing; the first three are allowed, the last two denied
    with a positive wait. *)
Example five_rapid_requests :
  requests (fun _ => 0%Q) 5 12345 (World 1 (init 0 3 1 100 1)) =
    [(true, 0%Q); (true, 0%Q); (true, 0%Q);
     (false, (1 - (3 - 1 - 1 - 1)) / 1)%Q; (false, (1 - (3 - 1 - 1 - 1)) / 1)%Q]
  /\ (0 < (1 - (3 - 1 - 1 - 1)) / 1)%Q.
Proof. vm_compute. split; reflexivity. Qed.

End RateLimiterFacts.

(** * Properties of ResourceManager *)

Module ResourceManagerFacts.
Import ResourceManager.

(** *** Counting entries under insertion and removal *)

Lemma user_active_nonneg (u : Z) (m : gmap Z Z) : 0 <= user_active u m.
Proof. unfold user_active. lia. Qed.

Lemma user_active_cons_perm (u : Z) (m : gmap Z Z) (k v : Z) (l : list (Z * Z)) :
  map_to_list m ≡ₚ (k, v) :: l ->
  user_active u m =
    Z.of_nat (length (filter (fun uid => uid = u) l.*2))
    + (if decide (v = u) then 1 else 0).
Proof.
  intros Hperm. unfold user_active. rewrite Hperm, fmap_cons, filter_cons.
  cbn [snd]. repeat case_decide; cbn [length]; try contradiction; lia.
Qed.

Lemma user_active_delete_Some (u : Z) (m : gmap Z Z) (k v : Z) :
  m !! k = Some v ->
  user_active u m =
    user_active u (delete k m) + (if decide (v = u) then 1 else 0).
Proof.
  intros Hlk. apply (user_active_cons_perm u m k).
  symmetry. apply map_to_list_delete. exact Hlk.
Qed.

Lemma user_active_insert_None (u : Z) (m : gmap Z Z) (k v : Z) :
  m !! k = None ->
  user_active u (<[k := v]> m) =
    user_active u m + (if decide (v = u) then 1 else 0).
Proof.
  intros Hlk. apply (user_active_cons_perm u _ k).
  apply map_to_list_insert. exact Hlk.
Qed.

Lemma user_active_delete_le (u : Z) (m : gmap Z Z) (k : Z) :
  user_active u (delete k m) <= user_active u m.
Proof.
  destruct (m !! k) as [v|] eqn:Hlk.
  - rewrite (user_active_delete_Some u m k v Hlk).
    destruct (decide (v = u)); lia.
  - rewrite delete_id by exact Hlk. lia.
Qed.

Lemma user_active_insert (u : Z) (m : gmap Z Z) (k v : Z) :
  user_active u (<[k := v]> m) =
    user_active u (delete k m) + (if decide (v = u) then 1 else 0).
Proof.
  rewrite <- insert_delete_eq.
  apply user_active_insert_None. apply lookup_delete_eq.
Qed.

Lemma user_active_insert_le (u : Z) (m : gmap Z Z) (k v : Z) :
  user_active u (<[k := v]> m) <=
    user_active u m + (if decide (v = u) then 1 else 0).
Proof.
  rewrite user_active_insert. pose proof (user_active_delete_le u m k). lia.
Qed.

Lemma active_count_insert_le (m : gmap Z Z) (k v : Z) :
  active_count (<[k := v]> m) <= active_count m + 1.
Proof.
  unfold active_count. rewrite map_size_insert.
  destruct (m !! k); simpl; lia.
Qed.

Lemma active_count_delete_le (m : gmap Z Z) (k : Z) :
  active_count (delete k m) <= active_count m.
Proof.
  unfold active_count. rewrite map_size_delete.
  destruct (m !! k); simpl; lia.
Qed.

(** *** The three critical sections *)

Lemma download_slot_acquire_unfold (current_task user_id : Z) (rm : t) :
  download_slot_acquire current_task user_id rm =
    let n := active_count (active_downloads rm) in
    let nu := user_active user_id (active_downloads rm) in
    if bool_decide (n >= max_concurrent_downloads rm) then
      (Raise (ResourceError (server_busy_msg n)), rm)
    else if bool_decide (nu >= max_downloads_per_user rm) then
      (Raise (ResourceError (user_busy_msg nu)), rm)
    else
      (Ok current_task,
       set_active (<[current_task := user_id]> (active_downloads rm)) rm).
Proof.
  unfold download_slot_acquire, mbind, M_bind, get, put, raise, mret, M_ret.
  simpl. repeat case_bool_decide; reflexivity.
Qed.

Lemma download_slot_release_unfold (task_id : Z) (rm : t) :
  download_slot_release task_id rm =
    (Ok tt, set_active (delete task_id (active_downloads rm)) rm).
Proof.
  unfold download_slot_release, mbind, M_bind, get, put, mret, M_ret. simpl.
  case_bool_decide as Hin; [reflexivity|].
  rewrite delete_id.
  - destruct rm; reflexivity.
  - destruct (active_downloads rm !! task_id) eqn:Hlk; [|reflexivity].
    exfalso. apply Hin. eauto.
Qed.

Lemma cancel_loop (l : list Z) : forall (m : gmap Z Z) (c : Z),
  foldl (fun '(m, cancelled) task_id => (delete task_id m, cancelled + 1))
        (m, c) l =
  (foldl (fun m task_id => delete task_id m) m l, c + Z.of_nat (length l)).
Proof.
  induction l as [|x l IH]; intros m c; simpl.
  - f_equal. lia.
  - rewrite IH. f_equal. lia.
Qed.

Lemma cancel_user_downloads_unfold (user_id : Z) (rm : t) :
  cancel_user_downloads user_id rm =
    let tasks_to_cancel :=
      (filter (fun kv => kv.2 = user_id) (map_to_list (active_downloads rm))).*1 in
    (Ok (Z.of_nat (length tasks_to_cancel)),
     set_active (foldl (fun m task_id => delete task_id m)
                       (active_downloads rm) tasks_to_cancel) rm).
Proof.
  unfold cancel_user_downloads, mbind, M_bind, get, put, mret, M_ret. simpl.
  rewrite cancel_loop. reflexivity.
Qed.

Lemma foldl_delete_counts (l : list Z) : forall (m : gmap Z Z),
  active_count (foldl (fun m task_id => delete task_id m) m l) <= active_count m /\
  forall u, user_active u (foldl (fun m task_id => delete task_id m) m l)
            <= user_active u m.
Proof.
  induction l as [|x l IH]; intros m; simpl.
  - split; [lia | intros u; lia].
  - destruct (IH (delete x m)) as [Hc Hu]. split.
    + pose proof (active_count_delete_le m x). lia.
    + intros u. pose proof (Hu u). pose proof (user_active_delete_le u m x). lia.
Qed.

(** Every step keeps the caps of the manager and preserves the invariant. *)
Lemma step_caps (o : op) (rm : t) :
  max_concurrent_downloads (step o rm) = max_concurrent_downloads rm /\
  max_downloads_per_user (step o rm) = max_downloads_per_user rm.
Proof.
  destruct o as [task uid|task|uid]; simpl.
  - rewrite download_slot_acquire_unfold. simpl.
    repeat case_bool_decide; split; reflexivity.
  - rewrite download_slot_release_unfold. split; reflexivity.
  - rewrite cancel_user_downloads_unfold. split; reflexivity.
Qed.

Lemma step_within_caps (o : op) (rm : t) :
  within_caps rm -> within_caps (step o rm).
Proof.
  intros [Hc Hu]. destruct o as [task uid|task|uid]; simpl.
  - rewrite download_slot_acquire_unfold. simpl.
    case_bool_decide as Hg; [split; assumption|].
    case_bool_decide as Hp; [split; assumption|].
    split; simpl.
    + pose proof (active_count_insert_le (active_downloads rm) task uid). lia.
    + intros u.
      pose proof (user_active_insert_le u (active_downloads rm) task uid) as Hi.
      pose proof (Hu u). destruct (decide (uid = u)) as [->|Hne]; lia.
  - rewrite download_slot_release_unfold. split; simpl.
    + pose proof (active_count_delete_le (active_downloads rm) task). lia.
    + intros u. pose proof (Hu u).
      pose proof (user_active_delete_le u (active_downloads rm) task). lia.
  - rewrite cancel_user_downloads_unfold. simpl.
    match goal with |- within_caps (set_active (foldl _ _ ?l) _) =>
      destruct (foldl_delete_counts l (active_downloads rm)) as [Hc' Hu'] end.
    split; simpl; [lia|]. intros u. pose proof (Hu u). pose proof (Hu' u). lia.
Qed.

Lemma run_within_caps (ops : list op) : forall rm,
  within_caps rm -> within_caps (run ops rm).
Proof.
  induction ops as [|o ops IH]; intros rm Hrm; simpl; [exact Hrm|].
  apply IH. apply step_within_caps. exact Hrm.
Qed.

Lemma run_caps (ops : list op) : forall rm,
  max_concurrent_downloads (run ops rm) = max_concurrent_downloads rm /\
  max_downloads_per_user (run ops rm) = max_downloads_per_user rm.
Proof.
  induction ops as [|o ops IH]; intros rm; simpl; [split; reflexivity|].
  destruct (IH (step o rm)) as [H1 H2]. destruct (step_caps o rm) as [H3 H4].
  unfold run in *. split; congruence.
Qed.

(** C1, as the code has it. The constructor takes the caps as they are
    given. A manager created with caps that are not negative satisfies, in
    every state reached by any sequence of slot acquisitions, slot releases
    and cancel_user_downloads calls, that the active-downloads mapping has at
    most max_concurrent_downloads entries and, for every user, at most
    max_downloads_per_user entries mapped to that user. *)
Theorem reachable_within_caps (max_concurrent max_per_user : Z) (ops : list op) :
  0 <= max_concurrent -> 0 <= max_per_user ->
  let rm := run ops (init max_concurrent max_per_user) in
  active_count (active_downloads rm) <= max_concurrent /\
  forall u, user_active u (active_downloads rm) <= max_per_user.
Proof.
  intros Hc Hu rm.
  assert (within_caps rm) as [H1 H2].
  { apply run_within_caps. unfold within_caps, init; simpl.
    split; [exact Hc|]. intros u. unfold user_active.
    rewrite map_to_list_empty. simpl. exact Hu. }
  destruct (run_caps ops (init max_concurrent max_per_user)) as [E1 E2].
  simpl in E1, E2. fold rm in E1, E2. split.
  - rewrite <- E1. exact H1.
  - intros u. rewrite <- E2. exact (H2 u).
Qed.

Lemma reachable_within_caps_witness :
  let rm := run [Acquire 1 7; Acquire 2 7; Acquire 3 8; Release 1; CancelUser 8]
                (init 2 1) in
  active_count (active_downloads rm) <= 2 /\
  forall u, user_active u (active_downloads rm) <= 1.
Proof.
  apply (reachable_within_caps 2 1
           [Acquire 1 7; Acquire 2 7; Acquire 3 8; Release 1; CancelUser 8]); lia.
Defined.

(** C1 as stated fails for a manager created with a negative cap, which
    the constructor accepts: before any call the mapping is empty, and its 0
    entries are more than a global cap of -1; likewise the 0 entries of
    user 7 are more than a per-user cap of -1. *)
Lemma negative_cap_exceeded_before_any_call :
  (let rm := run [] (init (-1) 2) in
   active_count (active_downloads rm) = 0 /\
   ~ active_count (active_downloads rm) <= max_concurrent_downloads rm) /\
  (let rm := run [] (init 10 (-1)) in
   user_active 7 (active_downloads rm) = 0 /\
   ~ forall u, user_active u (active_downloads rm) <= max_downloads_per_user rm).
Proof.
  split.
  - split; [reflexivity|]. vm_compute. intros H. apply H. reflexivity.
  - split; [reflexivity|]. intros H. specialize (H 7). vm_compute in H.
    apply H. reflexivity.
Qed.

(** C10. When the acquisition phase of [download_slot] raises, the manager,
    and with it the active-downloads mapping, is exactly as before the
    call; the error is one of the two resource errors, and the protected
    block is not entered. *)
Theorem failed_acquire_leaves_mapping
    (current_task user_id : Z) (rm : t) (e : exn) :
  fst (download_slot_acquire current_task user_id rm) = Raise e ->
  snd (download_slot_acquire current_task user_id rm) = rm /\
  active_downloads (snd (download_slot_acquire current_task user_id rm))
    = active_downloads rm /\
  (exists msg, e = ResourceError msg) /\
  forall (A : Type) (body : M A),
    download_slot current_task user_id body rm = (Raise e, rm).
Proof.
  intros Hfail.
  assert (download_slot_acquire current_task user_id rm = (Raise e, rm)
          /\ exists msg, e = ResourceError msg) as [Heq Hmsg].
  { revert Hfail. rewrite download_slot_acquire_unfold. simpl.
    repeat case_bool_decide; simpl; intros Hfail; try discriminate Hfail;
      injection Hfail as <-; eauto. }
  rewrite Heq. simpl. repeat split; [exact Hmsg|].
  intros A body. unfold download_slot, mbind, M_bind. rewrite Heq. reflexivity.
Qed.

Lemma failed_acquire_leaves_mapping_witness :
  let rm := mk 1 1 {[ 1 := 7 ]} in
  snd (download_slot_acquire 2 8 rm) = rm /\
  active_downloads (snd (download_slot_acquire 2 8 rm)) = active_downloads rm /\
  (exists msg, ResourceError (server_busy_msg 1) = ResourceError msg) /\
  forall (A : Type) (body : M A),
    download_slot 2 8 body rm = (Raise (ResourceError (server_busy_msg 1)), rm).
Proof.
  apply (failed_acquire_leaves_mapping 2 8 (mk 1 1 {[ 1 := 7 ]})
           (ResourceError (server_busy_msg 1))).
  reflexivity.
Defined.

(** *** The messages of the two denials *)

Lemma string_length_app (s t : string) :
  String.length (s +:+ t) = (String.length s + String.length t)%nat.
Proof. induction s as [|a s IH]; simpl; [reflexivity | rewrite IH; reflexivity]. Qed.

Lemma string_app_inv_tail (t : string) : forall s1 s2 : string,
  s1 +:+ t = s2 +:+ t -> s1 = s2.
Proof.
  induction s1 as [|a s1 IH]; intros [|b s2] Heq.
  - reflexivity.
  - apply (f_equal String.length) in Heq.
    rewrite !string_length_app in Heq. simpl in Heq. lia.
  - apply (f_equal String.length) in Heq.
    rewrite !string_length_app in Heq. simpl in Heq. lia.
  - change (String a (s1 +:+ t) = String b (s2 +:+ t)) in Heq.
    injection Heq as -> Heq. f_equal. apply IH. exact Heq.
Qed.

Lemma server_busy_msg_inj (a b : Z) : server_busy_msg a = server_busy_msg b -> a = b.
Proof.
  unfold server_busy_msg. intros Heq.
  apply (inj (String.app _)) in Heq.
  apply string_app_inv_tail in Heq. exact (inj pretty _ _ Heq).
Qed.

Lemma user_busy_msg_inj (a b : Z) : user_busy_msg a = user_busy_msg b -> a = b.
Proof.
  unfold user_busy_msg. intros Heq.
  apply (inj (String.app _)) in Heq.
  apply string_app_inv_tail in Heq. exact (inj pretty _ _ Heq).
Qed.

Lemma busy_msgs_differ (a b : Z) : server_busy_msg a <> user_busy_msg b.
Proof. unfold server_busy_msg, user_busy_msg. simpl. discriminate. Qed.

(** C7. The acquisition checks the global cap first: at or above it the
    call raises ResourceError with the "Server is busy" message, whatever
    the user's own count. Below it, a user at or above the per-user cap gets
    ResourceError with the "You have ... active downloads" message. The two
    messages are never equal, and each determines the count it reports:
    the number of active downloads, or of the user's active downloads. *)
Theorem acquire_denials_ordered_and_distinguished
    (current_task user_id : Z) (rm : t) :
  let n := active_count (active_downloads rm) in
  let nu := user_active user_id (active_downloads rm) in
  let outcome := fst (download_slot_acquire current_task user_id rm) in
  (n >= max_concurrent_downloads rm ->
     outcome = Raise (ResourceError (server_busy_msg n))) /\
  (n < max_concurrent_downloads rm -> nu >= max_downloads_per_user rm ->
     outcome = Raise (ResourceError (user_busy_msg nu))) /\
  (n < max_concurrent_downloads rm -> nu < max_downloads_per_user rm ->
     outcome = Ok current_task) /\
  (forall a b, server_busy_msg a <> user_busy_msg b) /\
  (forall a b, server_busy_msg a = server_busy_msg b -> a = b) /\
  (forall a b, user_busy_msg a = user_busy_msg b -> a = b).
Proof.
  intros n nu outcome. unfold outcome.
  rewrite download_slot_acquire_unfold. fold n nu. cbv zeta.
  repeat split.
  - intros Hg. rewrite bool_decide_true by exact Hg. reflexivity.
  - intros Hg Hu. rewrite bool_decide_false by lia.
    rewrite bool_decide_true by exact Hu. reflexivity.
  - intros Hg Hu. rewrite !bool_decide_false by lia. reflexivity.
  - exact busy_msgs_differ.
  - exact server_busy_msg_inj.
  - exact user_busy_msg_inj.
Qed.

Lemma acquire_denials_ordered_and_distinguished_witness :
  let held : gmap Z Z := {[ 1 := 12345; 2 := 67890 ]} in
  fst (download_slot_acquire 3 12345 (mk 2 1 held))
    = Raise (ResourceError (server_busy_msg (active_count held))) /\
  fst (download_slot_acquire 3 12345 (mk 3 1 held))
    = Raise (ResourceError (user_busy_msg (user_active 12345 held))).
Proof.
  intros held.
  pose proof (acquire_denials_ordered_and_distinguished 3 12345 (mk 2 1 held))
    as (Hglobal & _).
  pose proof (acquire_denials_ordered_and_distinguished 3 12345 (mk 3 1 held))
    as (_ & Huser & _).
  split.
  - apply Hglobal. vm_compute. discriminate.
  - apply Huser.
    + vm_compute. reflexivity.
    + vm_compute. discriminate.
Defined.

(** The test of the resource manager: caps 2 and 1, two users hold a slot
    each in tasks of their own; a further request of user 12345 meets both
    caps and is answered with the global message. *)
Example both_caps_reached_reports_global :
  let rm := run [Acquire 1 12345; Acquire 2 67890] (init 2 1) in
  fst (download_slot_acquire 3 12345 rm) =
    Raise (ResourceError "Server is busy (2 active downloads). Please try again later.").
Proof. vm_compute. reflexivity. Qed.

(** *** Release on every exit path *)

(** However the protected block ends, and whatever it did to the manager,
    the key of the calling task is absent from the mapping afterwards, and
    the outcome of the block is passed on. *)
Lemma download_slot_exit {A : Type} (current_task user_id : Z) (body : M A) (rm : t) :
  fst (download_slot_acquire current_task user_id rm) = Ok current_task ->
  let rm1 := snd (download_slot_acquire current_task user_id rm) in
  let '(r, rm') := download_slot current_task user_id body rm in
  r = fst (body rm1) /\
  active_downloads rm' = delete current_task (active_downloads (snd (body rm1))) /\
  active_downloads rm' !! current_task = None.
Proof.
  intros Hok rm1. unfold download_slot, mbind, M_bind.
  destruct (download_slot_acquire current_task user_id rm) as [r1 s1] eqn:Hacq.
  simpl in Hok, rm1. subst r1. unfold try_finally. fold rm1.
  destruct (body rm1) as [r s2]. rewrite download_slot_release_unfold. simpl.
  repeat split. apply lookup_delete_eq.
Qed.

(** When the calling task holds no slot at entry and the block leaves the
    mapping as it found it, the mapping after the exit is the mapping before
    the acquisition, for a block that returns and for a block that raises;
    so every user's count is back at its value before the acquisition. *)
Lemma download_slot_restores {A : Type} (current_task user_id : Z)
    (body : M A) (rm : t) :
  active_downloads rm !! current_task = None ->
  fst (download_slot_acquire current_task user_id rm) = Ok current_task ->
  (forall s, active_downloads (snd (body s)) = active_downloads s) ->
  let rm' := snd (download_slot current_task user_id body rm) in
  active_downloads rm' = active_downloads rm /\
  forall u, fst (get_user_active_downloads u rm')
            = fst (get_user_active_downloads u rm).
Proof.
  intros Hfresh Hok Hbody rm'.
  pose proof (download_slot_exit current_task user_id body rm Hok) as Hexit.
  unfold rm'. destruct (download_slot current_task user_id body rm) as [r s].
  destruct Hexit as (_ & Hmap & _). simpl.
  assert (active_downloads s = active_downloads rm) as Heq.
  { rewrite Hmap, Hbody. revert Hok. rewrite download_slot_acquire_unfold. simpl.
    repeat case_bool_decide; simpl; try discriminate. intros _.
    rewrite delete_insert_eq. apply delete_id. exact Hfresh. }
  split; [exact Heq|]. intros u.
  unfold get_user_active_downloads, mbind, M_bind, get, mret, M_ret. simpl.
  rewrite Heq. reflexivity.
Qed.

(** C3 at the input where it fails. The slot is keyed by the identity of
    the calling task. Task 1000 holds a slot for user 7 and, inside that
    block, acquires a second slot for user 7 (caps 10 and 2, the defaults):
    the second acquisition overwrites the entry of the first, and its release
    removes it. Before the inner acquisition user 7 has 1 active download,
    after the inner block has exited user 7 has 0, while the outer block is
    still running. The pair returned is (count before, count after). *)
Lemma nested_slot_of_one_task_not_restored :
  let inner : M unit := download_slot 1000 7 (mret tt) in
  let outer_body : M (Z * Z) :=
    before ← get_user_active_downloads 7;
    inner;;
    after ← get_user_active_downloads 7;
    mret (before, after) in
  fst (download_slot 1000 7 outer_body (init 10 2)) = Ok (1, 0).
Proof. vm_compute. reflexivity. Qed.

(** TEST 6 of test_bot.py runs in one task (here task 1000) with caps 2 and
    1: a slot for user 12345, inside it a slot for user 67890, inside that a
    second slot for user 12345, which the test expects to be refused. Each
    acquisition overwrites the entry of the task, so the third one is
    granted and the innermost block is reached. *)
Example test_bot_third_nested_slot_granted :
  let third : M string := download_slot 1000 12345 (mret "reached") in
  let second : M string := download_slot 1000 67890 third in
  fst (download_slot 1000 12345 second (init 2 1)) = Ok "reached".
Proof. vm_compute. reflexivity. Qed.

End ResourceManagerFacts.

(** * Properties of the admission path *)

Module BotFacts.
Import Bot.

Lemma appends_ret {A : Type} (a : A) : appends (mret a : H A).
Proof.
  intros w. exists []. split; [reflexivity|].
  simpl. rewrite app_nil_r. destruct w; reflexivity.
Qed.

Lemma appends_emit (e : event) : after_check e = true -> appends (emit e).
Proof.
  intros He w. exists [e]. split; [|reflexivity].
  simpl. rewrite He. reflexivity.
Qed.

Lemma appends_bind {A B : Type} (c : H A) (k : A -> H B) :
  appends c -> (forall a, appends (k a)) -> appends (c ≫= k).
Proof.
  intros Hc Hk w. unfold mbind, H_bind.
  destruct (Hc w) as (es1 & Hq1 & Hw1). destruct (c w) as [a w1]. simpl in Hw1.
  destruct (Hk a w1) as (es2 & Hq2 & Hw2). exists (es1 ++ es2). split.
  - rewrite forallb_app, Hq1, Hq2. reflexivity.
  - rewrite Hw2, Hw1. simpl. rewrite app_assoc. reflexivity.
Qed.

Lemma appends_notify (n : notice) : appends (notify n).
Proof. apply appends_emit. reflexivity. Qed.

Ltac appends_steps :=
  repeat first
    [ apply appends_notify
    | apply appends_ret
    | apply appends_bind; [|intros ?]
    | apply appends_emit; reflexivity ].

Section Handlers.
Variable lib : collaborators.
Variable cfg : config.
Variable time : nat -> Q.

Lemma appends_ydl_extract_info (url : string) (download : bool) :
  appends (ydl_extract_info lib url download).
Proof. unfold ydl_extract_info. appends_steps. Qed.

Lemma appends_loading_steps (n : nat) : forall k, appends (loading_steps n k).
Proof. induction n as [|n IH]; intros k; simpl; appends_steps. apply IH. Qed.

Lemma appends_download_tiktok_instagram (user_id : Z) (url : string) :
  appends (download_tiktok_instagram lib cfg user_id url).
Proof.
  unfold download_tiktok_instagram.
  apply appends_bind; [apply appends_notify | intros _].
  apply appends_bind; [apply appends_loading_steps | intros _].
  apply appends_bind; [apply appends_notify | intros _].
  apply appends_bind; [apply appends_ydl_extract_info | intros info].
  destruct info as [[|]|msg|name]; try apply appends_notify.
  destruct (downloaded_file_size lib) as [file_size|]; [|apply appends_notify].
  repeat case_bool_decide; appends_steps.
Qed.

Lemma appends_youtube_quality_menu (url : string) :
  appends (youtube_quality_menu lib url).
Proof.
  unfold youtube_quality_menu.
  apply appends_bind; [apply appends_notify | intros _].
  apply appends_bind; [apply appends_loading_steps | intros _].
  apply appends_bind; [apply appends_ydl_extract_info | intros info].
  destruct info as [[|]|msg|name]; apply appends_notify.
Qed.

(** The shape of every run of [handle_message]: the rate check first;
    after a denial only the wait notice; after an admission only events that
    are neither rate checks nor slot events. The limiter is as [check_limit]
    left it and the manager is not touched. *)
Lemma handle_message_world (user_id : Z) (message_text : string)
    (k : nat) (rl : RateLimiter.t) (rm : ResourceManager.t) :
  let '(answer, rl1) :=
    RateLimiter.check_limit time user_id (RateLimiter.World k rl) in
  exists es,
    forallb after_check es = true /\
    request lib cfg time user_id message_text k rl rm =
      World rl1 rm (CheckLimit user_id (fst answer) :: es) /\
    (fst answer = false ->
       es = [Notify (WaitSeconds (int_of_float (snd answer)))]).
Proof.
  unfold request, handle_message, rate_limiter_check_limit, mbind, H_bind.
  cbn [limiter manager trace].
  destruct (RateLimiter.check_limit time user_id (RateLimiter.World k rl))
    as [[allowed wait_time] rl1].
  cbn [fst snd app]. destruct allowed; cbn [negb].
  - match goal with |- context [snd (?c ?w0)] =>
      assert (appends c) as Happ;
        [|unfold appends in Happ; destruct (Happ w0) as (es & Hq & ->)] end.
    { destruct (_ || _); [apply appends_notify|].
      destruct (extract_url lib message_text) as [url|]; [|apply appends_notify].
      destruct (validate lib url) as [[is_valid platform] error_msg].
      destruct is_valid; cbn [negb]; [|apply appends_notify].
      destruct (is_youtube_url lib _).
      - apply appends_youtube_quality_menu.
      - apply appends_download_tiktok_instagram. }
    exists es. split; [exact Hq|]. split; [reflexivity|]. discriminate.
  - eexists. split; [|split; [reflexivity|reflexivity]]. reflexivity.
Qed.

End Handlers.

Lemma after_check_downloads (es : list event) :
  forallb after_check es = true -> downloads_after_rate_check true es = true.
Proof.
  induction es as [|e es IH]; simpl; [reflexivity|].
  intros Hq. apply andb_true_iff in Hq as [He Hes].
  destruct e as [u a|u g|u|url [|]|n]; simpl in *; try discriminate; auto.
Qed.

Lemma after_check_no_slot_event (es : list event) :
  forallb after_check es = true -> existsb is_slot_event es = false.
Proof.
  induction es as [|e es IH]; simpl; [reflexivity|].
  intros Hq. apply andb_true_iff in Hq as [He Hes].
  destruct e as [u a|u g|u|url d|n]; simpl in *; try discriminate; auto.
Qed.

(** What [handle_message] does ensure. In every run the extraction engine
    is asked to download only after [check_limit] has allowed the request; a
    denial by the rate limiter is terminal: the only thing that follows is
    the wait notice, and nothing is downloaded. No event of the resource
    manager occurs on this path, and the manager is left as it was. *)
Theorem handle_message_downloads_after_rate_check
    (lib : collaborators) (cfg : config) (time : nat -> Q)
    (user_id : Z) (message_text : string)
    (k : nat) (rl : RateLimiter.t) (rm : ResourceManager.t) :
  let answer := fst (RateLimiter.check_limit time user_id (RateLimiter.World k rl)) in
  let w := request lib cfg time user_id message_text k rl rm in
  downloads_after_rate_check false (trace w) = true /\
  (fst answer = false ->
     trace w = [CheckLimit user_id false;
                Notify (WaitSeconds (int_of_float (snd answer)))] /\
     existsb is_download (trace w) = false) /\
  existsb is_slot_event (trace w) = false /\
  manager w = rm.
Proof.
  intros answer w. unfold answer, w.
  pose proof (handle_message_world lib cfg time user_id message_text k rl rm)
    as Hworld.
  destruct (RateLimiter.check_limit time user_id (RateLimiter.World k rl))
    as [[allowed wait_time] rl1].
  destruct Hworld as (es & Hq & -> & Hden). cbn [fst snd trace manager] in *.
  repeat split.
  - destruct allowed; simpl.
    + apply after_check_downloads. exact Hq.
    + rewrite (Hden eq_refl). reflexivity.
  - subst allowed. rewrite (Hden eq_refl). reflexivity.
  - subst allowed. rewrite (Hden eq_refl). reflexivity.
  - simpl. apply after_check_no_slot_event. exact Hq.
Qed.

(** A bot whose global bucket is empty denies the request. *)
Lemma handle_message_downloads_after_rate_check_witness :
  let rl := RateLimiter.mk 5 (1 # 10) ∅ (TokenBucket.mk 100 1 0 0) in
  let w := request tiktok_run default_config (fun _ : nat => 0%Q)
                   42 tiktok_link 0 rl (ResourceManager.init 10 2) in
  trace w = [CheckLimit 42 false; Notify (WaitSeconds 1)] /\
  existsb is_download (trace w) = false.
Proof.
  intros rl w.
  destruct (handle_message_downloads_after_rate_check tiktok_run default_config
              (fun _ : nat => 0%Q) 42 tiktok_link 0 rl (ResourceManager.init 10 2))
    as (_ & Hdenied & _).
  apply Hdenied. reflexivity.
Defined.

(** C2. The flow of the claim, in which a download happens only while a
    slot acquired after the rate check is held, is not what the handler
    does: user 42 sends a TikTok link to a fresh bot whose manager was
    initialised with the caps 10 and 2. The rate check allows the request
    and the video is downloaded and sent, and no slot of the resource
    manager is acquired or released in between. *)
Lemma tiktok_link_downloaded_without_slot :
  let w := request tiktok_run default_config (fun _ : nat => 0%Q)
                   42 tiktok_link 1 default_limiter (ResourceManager.init 10 2) in
  trace w =
    [ CheckLimit 42 true; Notify (Detected "TikTok");
      Notify (LoadingStep 1); Notify (LoadingStep 2); Notify (LoadingStep 3);
      Notify Downloading; ExtractInfo tiktok_link true;
      Notify Sending; Notify VideoSent ] /\
  existsb is_download (trace w) = true /\
  existsb is_slot_event (trace w) = false /\
  follows_admission_flow false false (trace w) = false.
Proof. vm_compute. repeat split. Qed.

End BotFacts.

(** * Further properties of TokenBucket *)

Module TokenBucketExtFacts.
Import TokenBucket TokenBucketExt TokenBucketFacts.

Local Open Scope Q_scope.

Lemma Qgeb_proper (x x' y y' : Q) : x == x' -> y == y' -> Qgeb x y = Qgeb x' y'.
Proof.
  intros Hx Hy. destruct (Qgeb x' y') eqn:Hb.
  - apply Qgeb_true. apply Qgeb_true in Hb. rewrite Hx, Hy. exact Hb.
  - apply Qgeb_false. apply Qgeb_false in Hb. rewrite Hx, Hy. exact Hb.
Qed.

(** Refilling at the reading the bucket was last refilled at adds nothing. *)
Lemma _refill_same_instant (b : t) (c : Z) :
  tokens b == inject_Z c -> (c <= capacity b)%Z ->
  tokens (_refill (last_refill b) b) == inject_Z c.
Proof.
  intros Ht Hc. unfold _refill. simpl.
  assert (tokens b + (last_refill b - last_refill b) * refill_rate b == inject_Z c)
    as Hsum by (rewrite Ht; ring).
  rewrite Hsum. apply Q.min_r. rewrite <- Zle_Qle. exact Hc.
Qed.

Lemma consume_burst_from (k : nat) : forall (b : t) (c : Z),
  tokens b == inject_Z c -> (0 <= c <= capacity b)%Z ->
  consume_burst (last_refill b) k b =
    repeat true (Nat.min k (Z.to_nat c)) ++ repeat false (k - Z.to_nat c).
Proof.
  induction k as [|k IH]; intros b c Ht Hc; [reflexivity|].
  simpl consume_burst. unfold consume.
  pose proof (_refill_same_instant b c Ht (proj2 Hc)) as Hrefill.
  rewrite (Qgeb_proper _ (inject_Z c) _ (inject_Z 1) Hrefill (Qeq_refl _)).
  destruct (Qgeb (inject_Z c) (inject_Z 1)) eqn:Hge.
  - apply Qgeb_true in Hge. rewrite <- Zle_Qle in Hge.
    match goal with |- _ :: consume_burst _ k ?b1 = _ =>
      assert (consume_burst (last_refill b1) k b1 =
                repeat true (Nat.min k (Z.to_nat (c - 1)))
                ++ repeat false (k - Z.to_nat (c - 1))) as IH1 end.
    { apply IH.
      - simpl. rewrite Hrefill.
        unfold Qeq, Qminus, Qplus, Qopp, inject_Z. simpl. lia.
      - simpl. lia. }
    cbn [last_refill _refill] in IH1. cbn [last_refill _refill]. rewrite IH1.
    replace (Z.to_nat c) with (S (Z.to_nat (c - 1))) by lia. reflexivity.
  - apply Qgeb_false in Hge. rewrite <- Zlt_Qlt in Hge.
    assert (c = 0%Z) as -> by lia.
    match goal with |- _ :: consume_burst _ k ?b1 = _ =>
      assert (consume_burst (last_refill b1) k b1 =
                repeat true (Nat.min k (Z.to_nat 0))
                ++ repeat false (k - Z.to_nat 0)) as IH1 end.
    { apply IH; [exact Hrefill | simpl; lia]. }
    cbn [last_refill _refill] in IH1. cbn [last_refill _refill]. rewrite IH1.
    simpl. rewrite Nat.min_0_r, Nat.sub_0_r. reflexivity.
Qed.

(** X1. A burst on a full bucket: of [k] calls of [consume()] made at the
    very clock reading a bucket of capacity [cap >= 0] was created at, the
    first [cap] succeed and all later ones are refused, whatever the refill
    rate. *)
Theorem burst_on_fresh_bucket (now : Q) (cap : Z) (rate : Q) (k : nat) :
  (0 <= cap)%Z ->
  consume_burst now k (init now cap rate) =
    repeat true (Nat.min k (Z.to_nat cap)) ++ repeat false (k - Z.to_nat cap).
Proof.
  intros Hcap.
  apply (consume_burst_from k (init now cap rate) cap).
  - reflexivity.
  - simpl. lia.
Qed.

Lemma burst_on_fresh_bucket_witness :
  consume_burst 7 5 (init 7 3 (1 # 10)) =
    repeat true (Nat.min 5 (Z.to_nat 3)) ++ repeat false (5 - Z.to_nat 3).
Proof. apply burst_on_fresh_bucket. lia. Defined.

(** Refilling twice at one clock reading gives what refilling once
    gives. *)
Lemma _refill_twice (now : Q) (b : t) :
  tokens (_refill now (_refill now b)) == tokens (_refill now b).
Proof.
  unfold _refill at 1. cbn [tokens capacity refill_rate last_refill].
  change (capacity (_refill now b)) with (capacity b).
  change (last_refill (_refill now b)) with now.
  assert (tokens (_refill now b) + (now - now) * refill_rate (_refill now b)
          == tokens (_refill now b)) as -> by ring.
  apply Q.min_r. unfold _refill. simpl. apply Q.le_min_l.
Qed.

(** X2. [time_until_ready] and [consume] agree at one clock reading: with
    a positive refill rate, [time_until_ready()] reports 0 exactly when a
    [consume()] made at that same reading succeeds, and asking for the wait
    first does not change the answer of that [consume()]. *)
Theorem ready_now_iff_consume_succeeds (now : Q) (b : t) :
  0 < refill_rate b ->
  let (wait, b1) := time_until_ready now b in
  (wait == 0 <-> fst (consume now 1 b1) = true) /\
  fst (consume now 1 b1) = fst (consume now 1 b).
Proof.
  intros Hr. unfold time_until_ready.
  assert (fst (consume now 1 (_refill now b)) = Qgeb (tokens (_refill now b)) 1)
    as Hagain.
  { unfold consume.
    rewrite (Qgeb_proper _ (tokens (_refill now b)) (inject_Z 1) 1
               (_refill_twice now b) (Qeq_refl _)).
    destruct (Qgeb (tokens (_refill now b)) 1); reflexivity. }
  assert (fst (consume now 1 b) = Qgeb (tokens (_refill now b)) 1) as Hfirst.
  { unfold consume. change (inject_Z 1) with 1.
    destruct (Qgeb (tokens (_refill now b)) 1); reflexivity. }
  destruct (Qgeb (tokens (_refill now b)) 1) eqn:Hge.
  - split; [|congruence]. split; [intros _; exact Hagain | reflexivity].
  - split; [|congruence]. split.
    + intros Hzero. exfalso. apply Qgeb_false in Hge.
      assert (0 < (1 - tokens (_refill now b)) / refill_rate (_refill now b))
        as Hpos.
      { apply Qlt_shift_div_l; [exact Hr|].
        rewrite Qmult_0_l. unfold Qminus.
        rewrite <- (Qplus_opp_r (tokens (_refill now b))).
        apply Qplus_lt_le_compat; [exact Hge | apply Qle_refl]. }
      rewrite Hzero in Hpos. exact (Qlt_irrefl 0 Hpos).
    + rewrite Hagain. discriminate.
Qed.

Lemma ready_now_iff_consume_succeeds_witness :
  let (wait, b1) := time_until_ready 102 (mk 5 (1 # 10) (1 # 4) 100) in
  (wait == 0 <-> fst (consume 102 1 b1) = true) /\
  fst (consume 102 1 b1) = fst (consume 102 1 (mk 5 (1 # 10) (1 # 4) 100)).
Proof.
  apply (ready_now_iff_consume_succeeds 102 (mk 5 (1 # 10) (1 # 4) 100)).
  reflexivity.
Defined.

End TokenBucketExtFacts.

(** * Further properties of RateLimiter *)

Module RateLimiterExtFacts.
Import RateLimiter RateLimiterExt.

Section CheckLimit.
Variable time : nat -> Q.

(** What [check_limit] does once the global bucket has allowed the
    request. *)
Lemma check_limit_global_allowed_unfold (k : nat) (user_id : Z) (rl : t) :
  fst (TokenBucket.consume (time k) 1 (global_bucket rl)) = true ->
  check_limit time user_id (World k rl) =
    let g1 := snd (TokenBucket.consume (time k) 1 (global_bucket rl)) in
    let '(i, ub) := user_turn time k user_id rl in
    let '(ok, ub1) := TokenBucket.consume (time i) 1 ub in
    if ok then
      ((true, 0%Q),
       World (S i) (mk (user_capacity rl) (user_refill_rate rl)
                       (<[user_id := ub1]> (user_buckets rl)) g1))
    else
      let '(wait_time, ub2) := TokenBucket.time_until_ready (time (S i)) ub1 in
      ((false, wait_time),
       World (S (S i)) (mk (user_capacity rl) (user_refill_rate rl)
                           (<[user_id := ub2]> (user_buckets rl)) g1)).
Proof.
  intros Hok. unfold check_limit, on_global, user_buckets_getitem, on_user,
    user_turn, mbind, M_bind, mret, M_ret, time_time, get, put, set_global,
    set_buckets; simpl.
  destruct (TokenBucket.consume (time k) 1 (global_bucket rl)) as [ok g1].
  simpl in Hok. subst ok. simpl.
  destruct (user_buckets rl !! user_id) as [b|]; simpl.
  - destruct (TokenBucket.consume (time (S k)) 1 b) as [ok ub1]; simpl.
    destruct ok; simpl.
    + reflexivity.
    + destruct (TokenBucket.time_until_ready (time (S (S k))) ub1) as [w ub2].
      simpl. rewrite insert_insert_eq. reflexivity.
  - destruct (TokenBucket.consume (time (S (S k))) 1 _) as [ok ub1]; simpl.
    destruct ok; simpl.
    + rewrite insert_insert_eq. reflexivity.
    + destruct (TokenBucket.time_until_ready (time (S (S (S k)))) ub1) as [w ub2].
      simpl. rewrite !insert_insert_eq. reflexivity.
Qed.

Lemma consume_one_ok (now : Q) (b : TokenBucket.t) :
  fst (TokenBucket.consume now 1 b) = true <->
  (1 <= TokenBucket.tokens (TokenBucket._refill now b))%Q.
Proof.
  unfold TokenBucket.consume.
  destruct (TokenBucket.Qgeb _ _) eqn:Hge; simpl.
  - apply TokenBucketFacts.Qgeb_true in Hge. tauto.
  - apply TokenBucketFacts.Qgeb_false in Hge. split; [discriminate|].
    intros Hle. exfalso. exact (Qlt_not_le _ _ Hge Hle).
Qed.

Lemma consume_one_tokens (now : Q) (b : TokenBucket.t) :
  fst (TokenBucket.consume now 1 b) = true ->
  TokenBucket.tokens (snd (TokenBucket.consume now 1 b)) =
    (TokenBucket.tokens (TokenBucket._refill now b) - 1)%Q.
Proof.
  unfold TokenBucket.consume. destruct (TokenBucket.Qgeb _ _); simpl;
    [reflexivity | discriminate].
Qed.

(** X3. [check_limit] allows a request exactly when the global bucket,
    refilled at the first clock reading of the call, holds at least one
    token, and the bucket of the user (a new, full one if the user has
    none), refilled at its own reading, holds at least one token. *)
Theorem check_limit_allows_iff_both_buckets (k : nat) (user_id : Z) (rl : t) :
  let '(i, ub) := user_turn time k user_id rl in
  fst (fst (check_limit time user_id (World k rl))) = true <->
  (1 <= TokenBucket.tokens (TokenBucket._refill (time k) (global_bucket rl)))%Q /\
  (1 <= TokenBucket.tokens (TokenBucket._refill (time i) ub))%Q.
Proof.
  destruct (user_turn time k user_id rl) as [i ub] eqn:Hturn.
  destruct (fst (TokenBucket.consume (time k) 1 (global_bucket rl))) eqn:Hg.
  - rewrite (check_limit_global_allowed_unfold k user_id rl Hg), Hturn. simpl.
    apply consume_one_ok in Hg.
    destruct (TokenBucket.consume (time i) 1 ub) as [ok ub1] eqn:Hu.
    assert (ok = true <-> (1 <= TokenBucket.tokens (TokenBucket._refill (time i) ub))%Q)
      as Hiff by (rewrite <- consume_one_ok, Hu; reflexivity).
    destruct ok; simpl.
    + tauto.
    + destruct (TokenBucket.time_until_ready _ ub1). simpl.
      split; [discriminate|]. intros [_ H]. apply Hiff in H. discriminate.
  - rewrite (RateLimiterFacts.check_limit_global_denied time k user_id rl Hg).
    simpl. destruct (TokenBucket.time_until_ready _ _). simpl.
    split; [discriminate|]. intros [H _]. apply consume_one_ok in H. congruence.
Qed.

(** X4. An allowed request costs one token in each bucket: the answer is
    [(True, 0.0)], the global bucket is left with its refilled count minus
    one, and the user's entry holds the user's bucket with its refilled
    count minus one. *)
Theorem check_limit_allowed_takes_both_tokens (k : nat) (user_id : Z) (rl : t) :
  fst (fst (check_limit time user_id (World k rl))) = true ->
  let '(i, ub) := user_turn time k user_id rl in
  let '(answer, w) := check_limit time user_id (World k rl) in
  answer = (true, 0%Q) /\
  ticks w = S i /\
  TokenBucket.tokens (global_bucket (limiter w)) =
    (TokenBucket.tokens (TokenBucket._refill (time k) (global_bucket rl)) - 1)%Q /\
  exists ub1, user_buckets (limiter w) !! user_id = Some ub1 /\
    TokenBucket.tokens ub1 =
      (TokenBucket.tokens (TokenBucket._refill (time i) ub) - 1)%Q.
Proof.
  intros Hallowed.
  destruct (fst (TokenBucket.consume (time k) 1 (global_bucket rl))) eqn:Hg.
  - revert Hallowed.
    rewrite (check_limit_global_allowed_unfold k user_id rl Hg).
    destruct (user_turn time k user_id rl) as [i ub]. simpl.
    destruct (TokenBucket.consume (time i) 1 ub) as [ok ub1] eqn:Hu.
    destruct ok; simpl.
    + intros _. split; [reflexivity|]. split; [reflexivity|].
      split; [apply consume_one_tokens; exact Hg|].
      exists ub1. rewrite lookup_insert_eq. split; [reflexivity|].
      change ub1 with (snd (true, ub1)). rewrite <- Hu.
      apply consume_one_tokens. rewrite Hu. reflexivity.
    + destruct (TokenBucket.time_until_ready _ ub1). simpl. discriminate.
  - revert Hallowed.
    rewrite (RateLimiterFacts.check_limit_global_denied time k user_id rl Hg).
    simpl. destruct (TokenBucket.time_until_ready _ _). simpl. discriminate.
Qed.

(** X5. [check_limit] for one user touches no other user: whatever the
    answer, the entry of every other user is as before, and so are the
    settings for new buckets. *)
Theorem check_limit_leaves_other_users (k : nat) (user_id other : Z) (rl : t) :
  other <> user_id ->
  let rl' := limiter (snd (check_limit time user_id (World k rl))) in
  user_buckets rl' !! other = user_buckets rl !! other /\
  user_capacity rl' = user_capacity rl /\
  user_refill_rate rl' = user_refill_rate rl.
Proof.
  intros Hne.
  destruct (fst (TokenBucket.consume (time k) 1 (global_bucket rl))) eqn:Hg.
  - rewrite (check_limit_global_allowed_unfold k user_id rl Hg).
    destruct (user_turn time k user_id rl) as [i ub]. simpl.
    destruct (TokenBucket.consume (time i) 1 ub) as [ok ub1].
    destruct ok; simpl.
    + rewrite lookup_insert_ne by congruence. repeat split.
    + destruct (TokenBucket.time_until_ready _ ub1). simpl.
      rewrite lookup_insert_ne by congruence. repeat split.
  - rewrite (RateLimiterFacts.check_limit_global_denied time k user_id rl Hg).
    simpl. destruct (TokenBucket.time_until_ready _ _). simpl. repeat split.
Qed.

Lemma time_until_ready_nonneg (now : Q) (b : TokenBucket.t) :
  (0 < TokenBucket.refill_rate b)%Q ->
  (0 <= fst (TokenBucket.time_until_ready now b))%Q.
Proof.
  intros Hr. unfold TokenBucket.time_until_ready.
  destruct (TokenBucket.Qgeb _ _) eqn:Hge; simpl; [apply Qle_refl|].
  apply TokenBucketFacts.Qgeb_false in Hge.
  apply Qlt_le_weak. apply Qlt_shift_div_l; [exact Hr|].
  rewrite Qmult_0_l. unfold Qminus.
  rewrite <- (Qplus_opp_r (TokenBucket.tokens (TokenBucket._refill now b))).
  apply Qplus_lt_le_compat; [exact Hge | apply Qle_refl].
Qed.

Lemma refill_rate_consume (now : Q) (n : Z) (b : TokenBucket.t) :
  TokenBucket.refill_rate (snd (TokenBucket.consume now n b))
    = TokenBucket.refill_rate b.
Proof. exact (TokenBucketFacts.refill_rate_exec now (TokenBucket.Consume n) b). Qed.

(** X6. The wait that [check_limit] reports is never negative, whatever
    the clock does, as long as the refill rates of the global bucket, of new
    buckets and of the user's bucket are positive. *)
Theorem check_limit_wait_not_negative (k : nat) (user_id : Z) (rl : t) :
  (0 < TokenBucket.refill_rate (global_bucket rl))%Q ->
  (0 < user_refill_rate rl)%Q ->
  (forall b, user_buckets rl !! user_id = Some b ->
             (0 < TokenBucket.refill_rate b)%Q) ->
  (0 <= snd (fst (check_limit time user_id (World k rl))))%Q.
Proof.
  intros Hgr Hur Hbr.
  destruct (fst (TokenBucket.consume (time k) 1 (global_bucket rl))) eqn:Hg.
  - rewrite (check_limit_global_allowed_unfold k user_id rl Hg).
    assert (0 < TokenBucket.refill_rate (snd (user_turn time k user_id rl)))%Q
      as Hrate.
    { unfold user_turn. destruct (user_buckets rl !! user_id) as [b|] eqn:Hlk;
        simpl; [apply Hbr; reflexivity | exact Hur]. }
    destruct (user_turn time k user_id rl) as [i ub]. simpl in *.
    destruct (TokenBucket.consume (time i) 1 ub) as [ok ub1] eqn:Hu.
    destruct ok; simpl; [apply Qle_refl|].
    pose proof (time_until_ready_nonneg (time (S i)) ub1) as Hw.
    destruct (TokenBucket.time_until_ready (time (S i)) ub1). simpl in *.
    apply Hw. change ub1 with (snd (false, ub1)). rewrite <- Hu.
    rewrite refill_rate_consume. exact Hrate.
  - rewrite (RateLimiterFacts.check_limit_global_denied time k user_id rl Hg).
    simpl.
    pose proof (time_until_ready_nonneg (time (S k))
                  (snd (TokenBucket.consume (time k) 1 (global_bucket rl)))) as Hw.
    destruct (TokenBucket.time_until_ready _ _). simpl in *.
    apply Hw. rewrite refill_rate_consume. exact Hgr.
Qed.

End CheckLimit.

Lemma check_limit_allowed_takes_both_tokens_witness :
  let time := fun _ : nat => 0%Q in
  let rl := init 0 5 (1 # 10) 100 1 in
  let '(i, ub) := user_turn time 1 7 rl in
  let '(answer, w) := check_limit time 7 (World 1 rl) in
  answer = (true, 0%Q) /\
  ticks w = S i /\
  TokenBucket.tokens (global_bucket (limiter w)) =
    (TokenBucket.tokens (TokenBucket._refill (time 1%nat) (global_bucket rl)) - 1)%Q /\
  exists ub1, user_buckets (limiter w) !! 7 = Some ub1 /\
    TokenBucket.tokens ub1 =
      (TokenBucket.tokens (TokenBucket._refill (time i) ub) - 1)%Q.
Proof.
  apply (check_limit_allowed_takes_both_tokens (fun _ : nat => 0%Q) 1 7
           (init 0 5 (1 # 10) 100 1)).
  reflexivity.
Defined.

Lemma check_limit_leaves_other_users_witness :
  let time := fun _ : nat => 0%Q in
  let rl := mk 5 (1 # 10) {[ 8 := TokenBucket.mk 5 (1 # 10) 2 0 ]}
               (TokenBucket.mk 100 1 100 0) in
  let rl' := limiter (snd (check_limit time 7 (World 1 rl))) in
  user_buckets rl' !! 8 = user_buckets rl !! 8 /\
  user_capacity rl' = user_capacity rl /\
  user_refill_rate rl' = user_refill_rate rl.
Proof.
  apply (check_limit_leaves_other_users (fun _ : nat => 0%Q) 1 7 8
           (mk 5 (1 # 10) {[ 8 := TokenBucket.mk 5 (1 # 10) 2 0 ]}
               (TokenBucket.mk 100 1 100 0))).
  discriminate.
Defined.

Lemma check_limit_wait_not_negative_witness :
  let time := fun _ : nat => 0%Q in
  let rl := mk 1 (1 # 10) {[ 7 := TokenBucket.mk 1 (1 # 10) 0 0 ]}
               (TokenBucket.mk 100 1 100 0) in
  (0 <= snd (fst (check_limit time 7 (World 1 rl))))%Q.
Proof.
  apply (check_limit_wait_not_negative (fun _ : nat => 0%Q) 1 7
           (mk 1 (1 # 10) {[ 7 := TokenBucket.mk 1 (1 # 10) 0 0 ]}
               (TokenBucket.mk 100 1 100 0))).
  - reflexivity.
  - reflexivity.
  - intros b Hlk. simpl in Hlk. apply lookup_singleton_Some in Hlk as [_ <-].
    reflexivity.
Defined.

(** *** reset_user, get_user_status, cleanup_old_buckets *)

Lemma Qmin_left (x y : Q) : (x <= y)%Q -> Qmin x y = x.
Proof.
  intros Hle. unfold Qmin, GenericMinMax.gmin.
  destruct (x ?= y)%Q eqn:Hc; try reflexivity.
  exfalso. apply Qle_alt in Hle. apply Hle. exact Hc.
Qed.

(** A full bucket stays full when it is refilled later, and it holds as
    many tokens as its capacity says. *)
Lemma _refill_full (now : Q) (b : TokenBucket.t) :
  TokenBucket.tokens b = inject_Z (TokenBucket.capacity b) ->
  (0 <= TokenBucket.refill_rate b)%Q ->
  (TokenBucket.last_refill b <= now)%Q ->
  TokenBucket.tokens (TokenBucket._refill now b) = inject_Z (TokenBucket.capacity b).
Proof.
  intros Hfull Hr Ht. unfold TokenBucket._refill. simpl. rewrite Hfull.
  apply Qmin_left.
  rewrite <- (Qplus_0_r (inject_Z (TokenBucket.capacity b))) at 1.
  apply Qplus_le_compat; [apply Qle_refl|].
  apply Qmult_le_0_compat; [|exact Hr].
  unfold Qminus. rewrite <- (Qplus_opp_r (TokenBucket.last_refill b)).
  apply Qplus_le_compat; [exact Ht | apply Qle_refl].
Qed.

Section Maintenance.
Variable time : nat -> Q.

(** [reset_user] for a user who has no bucket does nothing at all: no
    bucket is created and the clock is not read. For a user who has one,
    only that entry changes: it becomes a full bucket refilled at the
    reading of the call, while the other users and the global bucket stay
    as they are. *)
Theorem reset_user_effect (k : nat) (user_id : Z) (rl : t) :
  (user_buckets rl !! user_id = None ->
     snd (reset_user time user_id (World k rl)) = World k rl) /\
  (forall b, user_buckets rl !! user_id = Some b ->
     let w := snd (reset_user time user_id (World k rl)) in
     ticks w = S k /\
     user_buckets (limiter w) !! user_id
       = Some (TokenBucket.mk (TokenBucket.capacity b) (TokenBucket.refill_rate b)
                              (inject_Z (TokenBucket.capacity b)) (time k)) /\
     (forall other, other <> user_id ->
        user_buckets (limiter w) !! other = user_buckets rl !! other) /\
     global_bucket (limiter w) = global_bucket rl).
Proof.
  unfold reset_user, on_user, mbind, M_bind, mret, M_ret, time_time, get, put.
  simpl. split.
  - intros ->. reflexivity.
  - intros b ->. simpl. split; [reflexivity|]. split.
    + rewrite lookup_insert_eq. reflexivity.
    + split; [|reflexivity]. intros other Hne.
      rewrite lookup_insert_ne by congruence. reflexivity.
Qed.

(** X7. A reset lets the user through: after [reset_user] for a user whose
    bucket has a capacity of at least 1 and a refill rate that is not
    negative, the next [check_limit] of that user is allowed, provided the
    global bucket has a token at that moment and the clock has not gone
    back since the reset. *)
Theorem check_limit_after_reset_user (k : nat) (user_id : Z) (rl : t)
    (b : TokenBucket.t) :
  user_buckets rl !! user_id = Some b ->
  (1 <= TokenBucket.capacity b)%Z ->
  (0 <= TokenBucket.refill_rate b)%Q ->
  (time k <= time (S (S k)))%Q ->
  (1 <= TokenBucket.tokens
          (TokenBucket._refill (time (S k)) (global_bucket rl)))%Q ->
  fst (fst (check_limit time user_id
              (snd (reset_user time user_id (World k rl))))) = true.
Proof.
  intros Hlk Hcap Hr Ht Hg.
  unfold reset_user, on_user, mbind, M_bind, mret, M_ret, time_time, get, put.
  simpl. rewrite Hlk. simpl.
  apply consume_one_ok in Hg.
  match goal with |- context [check_limit time user_id (World _ ?rl1)] =>
    pose proof (check_limit_global_allowed_unfold time (S k) user_id rl1 Hg) as Hun
  end.
  unfold set_buckets in *. simpl in Hun. rewrite Hun. clear Hun.
  unfold user_turn. simpl. rewrite lookup_insert_eq.
  assert (fst (TokenBucket.consume (time (S (S k))) 1
                 (TokenBucket.reset (time k) b)) = true) as Hu.
  { apply consume_one_ok. rewrite _refill_full; simpl; try assumption;
      try reflexivity.
    change 1%Q with (inject_Z 1). rewrite <- Zle_Qle. exact Hcap. }
  destruct (TokenBucket.consume (time (S (S k))) 1
              (TokenBucket.reset (time k) b)) as [ok ub1].
  simpl in Hu. subst ok. reflexivity.
Qed.

(** X8. [get_user_status] is not read-only towards the map: it leaves the
    user with a bucket, creating one for a user who had none, and touches
    no other user and not the global bucket. For a user who had none, with
    a capacity for new buckets of at least 1, a refill rate that is not
    negative and a clock that does not go back during the call, it reports
    a full bucket and no wait. *)
Theorem get_user_status_effect (k : nat) (user_id : Z) (rl : t) :
  let '(status, w) := get_user_status time user_id (World k rl) in
  is_Some (user_buckets (limiter w) !! user_id) /\
  (forall other, other <> user_id ->
     user_buckets (limiter w) !! other = user_buckets rl !! other) /\
  global_bucket (limiter w) = global_bucket rl /\
  (user_buckets rl !! user_id = None ->
   1 <= user_capacity rl -> (0 <= user_refill_rate rl)%Q ->
   (time k <= time (S k))%Q -> (time (S k) <= time (S (S k)))%Q ->
   status = (inject_Z (user_capacity rl), user_capacity rl, 0%Q)).
Proof.
  unfold get_user_status, user_buckets_getitem, on_user, mbind, M_bind, mret,
    M_ret, time_time, get, put, set_buckets. simpl.
  destruct (user_buckets rl !! user_id) as [b|] eqn:Hlk; simpl.
  - destruct (TokenBucket.time_until_ready _ _) as [wt b2]. simpl.
    rewrite lookup_insert_eq. split; [eauto|]. split.
    + intros other Hne. rewrite !lookup_insert_ne by congruence. reflexivity.
    + split; [reflexivity | discriminate].
  - set (b0 := TokenBucket.init (time k) (user_capacity rl) (user_refill_rate rl)).
    set (b1 := TokenBucket._refill (time (S k)) b0).
    destruct (TokenBucket.time_until_ready (time (S (S k))) b1) as [wt b2] eqn:Hw.
    simpl. rewrite lookup_insert_eq. split; [eauto|]. split.
    + intros other Hne. rewrite !lookup_insert_ne by congruence. reflexivity.
    + split; [reflexivity|]. intros _ Hcap Hr Ht1 Ht2.
      assert (TokenBucket.tokens b1 = inject_Z (user_capacity rl)) as Hb1
        by (apply (_refill_full (time (S k)) b0); [reflexivity | exact Hr | exact Ht1]).
      assert (TokenBucket.tokens (TokenBucket._refill (time (S (S k))) b1)
              = inject_Z (user_capacity rl)) as Hb2
        by (apply (_refill_full (time (S (S k))) b1); [exact Hb1 | exact Hr | exact Ht2]).
      revert Hw. unfold TokenBucket.time_until_ready. rewrite Hb2.
      assert (TokenBucket.Qgeb (inject_Z (user_capacity rl)) 1 = true) as ->.
      { apply TokenBucketFacts.Qgeb_true. change 1%Q with (inject_Z 1).
        rewrite <- Zle_Qle. exact Hcap. }
      intros [= <- _]. simpl in Hb1. rewrite Hb1. reflexivity.
Qed.

(** [cleanup_old_buckets] only removes: every bucket that is left is
    a bucket that was there, unchanged, and is not older than [max_age];
    the global bucket and the settings are not touched, and the clock is
    read once. *)
Theorem cleanup_old_buckets_only_removes (k : nat) (max_age : Q) (rl : t) :
  let w := snd (cleanup_old_buckets time max_age (World k rl)) in
  user_buckets (limiter w) ⊆ user_buckets rl /\
  (forall u b, user_buckets (limiter w) !! u = Some b ->
     (time k - TokenBucket.last_refill b <= max_age)%Q) /\
  global_bucket (limiter w) = global_bucket rl /\
  user_capacity (limiter w) = user_capacity rl /\
  user_refill_rate (limiter w) = user_refill_rate rl /\
  ticks w = S k.
Proof.
  intros w. split; [|split].
  - apply map_subseteq_spec. intros u b. unfold w.
    rewrite RateLimiterFacts.lookup_cleanup_old_buckets.
    destruct (user_buckets rl !! u) as [b'|]; [|discriminate].
    destruct (is_old (time k) max_age b'); [discriminate | tauto].
  - intros u b. unfold w.
    rewrite RateLimiterFacts.lookup_cleanup_old_buckets.
    destruct (user_buckets rl !! u) as [b'|]; [|discriminate].
    destruct (is_old (time k) max_age b') eqn:Hold; [discriminate|].
    intros [= <-]. apply RateLimiterFacts.is_old_false. exact Hold.
  - unfold w, cleanup_old_buckets, mbind, M_bind, time_time, get, put. simpl.
    repeat split.
Qed.

(** *** Every bucket stays within its capacity *)

Lemma monotone_le : monotone time -> forall i j, (i <= j)%nat -> (time i <= time j)%Q.
Proof.
  intros Hm i j Hij. induction Hij as [|j Hij IH]; [apply Qle_refl|].
  eapply Qle_trans; [exact IH | apply Hm].
Qed.

Lemma bucket_ok_later (t0 t1 : Q) (b : TokenBucket.t) :
  bucket_ok t0 b -> (t0 <= t1)%Q -> bucket_ok t1 b.
Proof.
  intros (Hw & Hr & Hl) Ht. repeat split; try assumption; try apply Hw.
  eapply Qle_trans; eassumption.
Qed.

Lemma bucket_ok_exec (t0 now : Q) (c : TokenBucket.call) (b : TokenBucket.t) :
  bucket_ok t0 b -> (t0 <= now)%Q -> TokenBucket.nonneg_amount c ->
  bucket_ok now (TokenBucket.exec now c b).
Proof.
  intros (Hw & Hr & Hl) Ht Hc.
  assert (TokenBucket.last_refill b <= now)%Q as Hl'
    by (eapply Qle_trans; eassumption).
  split; [apply TokenBucketFacts.exec_within; assumption|]. split.
  - rewrite TokenBucketFacts.refill_rate_exec. exact Hr.
  - destruct c as [n| |]; simpl; unfold TokenBucket.consume,
      TokenBucket.time_until_ready; try destruct (TokenBucket.Qgeb _ _);
      simpl; apply Qle_refl.
Qed.

Lemma check_limit_ok (user_id : Z) (w : world) :
  monotone time -> limiter_ok time w ->
  limiter_ok time (snd (check_limit time user_id w)).
Proof.
  intros Hm (Hcap & Hrate & Hg & Hu). destruct w as [k rl]. simpl in *.
  assert (forall j, (k <= j)%nat -> (time (pred k) <= time j)%Q) as Hfrom
    by (intros j Hj; apply monotone_le; [exact Hm | simpl; lia]).
  set (g1 := TokenBucket.exec (time k) (TokenBucket.Consume 1) (global_bucket rl)).
  assert (bucket_ok (time k) g1) as Hg1
    by (apply (bucket_ok_exec (time (pred k))); [exact Hg | apply Hfrom; lia | simpl; lia]).
  destruct (fst (TokenBucket.consume (time k) 1 (global_bucket rl))) eqn:Hok.
  - rewrite (check_limit_global_allowed_unfold time k user_id rl Hok).
    assert (bucket_ok (time (pred (fst (user_turn time k user_id rl))))
                      (snd (user_turn time k user_id rl))
            /\ (k < fst (user_turn time k user_id rl))%nat) as [Hub Hi].
    { unfold user_turn. destruct (user_buckets rl !! user_id) as [b|] eqn:Hlk; simpl.
      - split; [|lia]. apply (bucket_ok_later (time (pred k))); [eauto | apply Hfrom; simpl; lia].
      - split; [|lia]. split; [apply TokenBucketFacts.init_within; exact Hcap|].
        split; [exact Hrate | apply Qle_refl]. }
    destruct (user_turn time k user_id rl) as [i ub]. simpl in Hub, Hi. simpl.
    set (ub1 := TokenBucket.exec (time i) (TokenBucket.Consume 1) ub).
    assert (bucket_ok (time i) ub1) as Hub1.
    { apply (bucket_ok_exec (time (pred i))); [exact Hub | | simpl; lia].
      apply monotone_le; [exact Hm | simpl; lia]. }
    destruct (TokenBucket.consume (time i) 1 ub) as [ok ub1'] eqn:Hc.
    assert (ub1' = ub1) as -> by (unfold ub1; simpl; rewrite Hc; reflexivity).
    destruct ok; simpl.
    + split; [exact Hcap|]. split; [exact Hrate|]. split.
      * apply (bucket_ok_later (time k)); [exact Hg1|].
        apply monotone_le; [exact Hm | simpl; lia].
      * intros u b Hlk. simpl in Hlk. destruct (decide (u = user_id)) as [->|Hne].
        -- rewrite lookup_insert_eq in Hlk. injection Hlk as <-. exact Hub1.
        -- rewrite lookup_insert_ne in Hlk by congruence.
           apply (bucket_ok_later (time (pred k))); [eauto | apply Hfrom; simpl; lia].
    + set (ub2 := TokenBucket.exec (time (S i)) TokenBucket.TimeUntilReady ub1).
      assert (bucket_ok (time (S i)) ub2) as Hub2.
      { apply (bucket_ok_exec (time i)); [exact Hub1 | apply Hm | exact I]. }
      destruct (TokenBucket.time_until_ready (time (S i)) ub1) as [wt ub2'] eqn:Hw.
      assert (ub2' = ub2) as -> by (unfold ub2; simpl; rewrite Hw; reflexivity).
      simpl. split; [exact Hcap|]. split; [exact Hrate|]. split.
      * apply (bucket_ok_later (time k)); [exact Hg1|].
        apply monotone_le; [exact Hm | simpl; lia].
      * intros u b Hlk. simpl in Hlk. destruct (decide (u = user_id)) as [->|Hne].
        -- rewrite lookup_insert_eq in Hlk. injection Hlk as <-. exact Hub2.
        -- rewrite lookup_insert_ne in Hlk by congruence.
           apply (bucket_ok_later (time (pred k))); [eauto | apply Hfrom; simpl; lia].
  - rewrite (RateLimiterFacts.check_limit_global_denied time k user_id rl Hok).
    set (g2 := TokenBucket.exec (time (S k)) TokenBucket.TimeUntilReady g1).
    assert (bucket_ok (time (S k)) g2) as Hg2.
    { apply (bucket_ok_exec (time k)); [exact Hg1 | apply Hm | exact I]. }
    simpl.
    destruct (TokenBucket.time_until_ready (time (S k)) _) as [wt g2'] eqn:Hw.
    assert (g2' = g2) as -> by (unfold g2, g1; simpl; rewrite Hw; reflexivity).
    simpl. split; [exact Hcap|]. split; [exact Hrate|]. split; [exact Hg2|].
    intros u b Hlk. simpl in Hlk.
    apply (bucket_ok_later (time (pred k))); [eauto | apply Hfrom; simpl; lia].
Qed.

Lemma serve_ok (users : list Z) : forall w,
  monotone time -> limiter_ok time w -> limiter_ok time (serve time users w).
Proof.
  induction users as [|u users IH]; intros w Hm Hw; simpl; [exact Hw|].
  apply IH; [exact Hm|]. apply check_limit_ok; assumption.
Qed.

(** X9. With a clock that never goes back, every bucket of a limiter
    created with capacities and refill rates that are not negative stays
    within [0, capacity], whichever users send requests in whichever
    order. *)
Theorem limiter_buckets_within_capacity (users : list Z)
    (user_capacity : Z) (user_refill_rate : Q)
    (global_capacity : Z) (global_refill_rate : Q) :
  monotone time ->
  0 <= user_capacity -> (0 <= user_refill_rate)%Q ->
  0 <= global_capacity -> (0 <= global_refill_rate)%Q ->
  let w := serve time users
             (World 1 (init (time 0%nat) user_capacity user_refill_rate
                            global_capacity global_refill_rate)) in
  TokenBucket.within_capacity (global_bucket (limiter w)) /\
  forall u b, user_buckets (limiter w) !! u = Some b ->
              TokenBucket.within_capacity b.
Proof.
  intros Hm Huc Hur Hgc Hgr w.
  assert (limiter_ok time w) as (_ & _ & Hg & Hu).
  { apply serve_ok; [exact Hm|]. unfold limiter_ok, init. simpl.
    split; [exact Huc|]. split; [exact Hur|]. split.
    - split; [apply TokenBucketFacts.init_within; exact Hgc|].
      split; [exact Hgr | apply Qle_refl].
    - intros u b Hlk. rewrite lookup_empty in Hlk. discriminate. }
  split; [apply Hg|]. intros u b Hlk. apply (Hu u b Hlk).
Qed.

End Maintenance.

Lemma reset_user_effect_witness :
  let rl := mk 5 (1 # 10) {[ 7 := TokenBucket.mk 5 (1 # 10) 0 0 ]}
               (TokenBucket.mk 100 1 100 0) in
  snd (reset_user (fun _ : nat => 0%Q) 8 (World 3 rl)) = World 3 rl /\
  ticks (snd (reset_user (fun _ : nat => 0%Q) 7 (World 3 rl))) = 4%nat.
Proof.
  intros rl. split.
  - apply (proj1 (reset_user_effect (fun _ : nat => 0%Q) 3 8 rl)). reflexivity.
  - apply (proj2 (reset_user_effect (fun _ : nat => 0%Q) 3 7 rl) (TokenBucket.mk 5 (1 # 10) 0 0)).
    reflexivity.
Defined.

Lemma check_limit_after_reset_user_witness :
  let time := fun _ : nat => 0%Q in
  let rl := mk 5 (1 # 10) {[ 7 := TokenBucket.mk 5 (1 # 10) 0 0 ]}
               (TokenBucket.mk 100 1 100 0) in
  fst (fst (check_limit time 7 (snd (reset_user time 7 (World 3 rl))))) = true.
Proof.
  intros time rl.
  apply (check_limit_after_reset_user time 3 7 rl (TokenBucket.mk 5 (1 # 10) 0 0)).
  - reflexivity.
  - simpl. lia.
  - discriminate.
  - discriminate.
  - discriminate.
Defined.


Lemma get_user_status_effect_witness :
  fst (get_user_status (fun _ : nat => 0%Q) 7
         (World 1 (init 0 5 (1 # 10) 100 1))) = (inject_Z 5, 5, 0%Q).
Proof.
  pose proof (get_user_status_effect (fun _ : nat => 0%Q) 1 7
                (init 0 5 (1 # 10) 100 1)) as H.
  destruct (get_user_status (fun _ : nat => 0%Q) 7
              (World 1 (init 0 5 (1 # 10) 100 1))) as [status w].
  destruct H as (_ & _ & _ & Hfresh). simpl.
  apply Hfresh; [reflexivity | simpl; lia | discriminate | discriminate
                | discriminate].
Defined.

Lemma limiter_buckets_within_capacity_witness :
  let time := fun n : nat => inject_Z (Z.of_nat n) in
  let w := serve time [7; 8; 7; 7] (World 1 (init (time 0%nat) 2 (1 # 10) 3 1)) in
  TokenBucket.within_capacity (global_bucket (limiter w)) /\
  forall u b, user_buckets (limiter w) !! u = Some b ->
              TokenBucket.within_capacity b.
Proof.
  apply (limiter_buckets_within_capacity (fun n : nat => inject_Z (Z.of_nat n))
           [7; 8; 7; 7] 2 (1 # 10) 3 1).
  - intros i. rewrite <- Zle_Qle. lia.
  - lia.
  - discriminate.
  - lia.
  - discriminate.
Defined.

End RateLimiterExtFacts.

(** * Further properties of ResourceManager *)

Module ResourceManagerExtFacts.
Import ResourceManager ResourceManagerExt ResourceManagerFacts.

(** *** cancel_user_downloads *)

Lemma cancel_tasks_spec (user_id : Z) (m : gmap Z Z) :
  let tasks := (filter (fun kv : Z * Z => kv.2 = user_id) (map_to_list m)).*1 in
  NoDup tasks /\
  (forall t, t ∈ tasks <-> m !! t = Some user_id) /\
  Z.of_nat (length tasks) = user_active user_id m.
Proof.
  intros tasks. split; [|split].
  - apply (sublist_NoDup _ (map_to_list m).*1); [apply NoDup_fst_map_to_list|].
    unfold tasks. apply fmap_sublist. apply sublist_filter.
  - intros t. unfold tasks. rewrite list_elem_of_fmap. split.
    + intros [[t' u] [-> Hin]]. apply list_elem_of_filter in Hin as [Hu Hin].
      apply elem_of_map_to_list in Hin. simpl in *. congruence.
    + intros Hlk. exists (t, user_id). split; [reflexivity|].
      apply list_elem_of_filter. split; [reflexivity|].
      apply elem_of_map_to_list. exact Hlk.
  - unfold tasks, user_active. f_equal. rewrite length_fmap.
    induction (map_to_list m) as [|[t u] l IH]; [reflexivity|].
    rewrite fmap_cons, !filter_cons. cbn [snd].
    repeat case_decide; cbn [length]; try contradiction; rewrite IH; reflexivity.
Qed.

Lemma foldl_delete_owned (user_id : Z) (l : list Z) : forall m : gmap Z Z,
  NoDup l -> (forall t, t ∈ l -> m !! t = Some user_id) ->
  let m' := foldl (fun m task_id => delete task_id m) m l in
  active_count m' = active_count m - Z.of_nat (length l) /\
  forall u, user_active u m' =
            user_active u m - (if decide (user_id = u) then Z.of_nat (length l) else 0).
Proof.
  induction l as [|x l IH]; intros m Hnd Hall; simpl.
  - split; [lia|]. intros u. destruct (decide _); lia.
  - apply NoDup_cons in Hnd as [Hx Hnd].
    assert (m !! x = Some user_id) as Hmx by (apply Hall; apply elem_of_cons; by left).
    destruct (IH (delete x m) Hnd) as [Hc Hu].
    { intros t Ht. rewrite lookup_delete_ne by (intros ->; contradiction).
      apply Hall. apply elem_of_cons. by right. }
    split.
    + rewrite Hc. unfold active_count. rewrite map_size_delete, Hmx.
      assert (size m <> 0%nat) by (apply map_size_ne_0_lookup; eauto). lia.
    + intros u. rewrite Hu, (user_active_delete_Some u m x user_id Hmx).
      destruct (decide (user_id = u)); lia.
Qed.

(** X10. [cancel_user_downloads] returns the number of active downloads the
    user had; afterwards the user has none, every other user has as many as
    before and keeps the same entries, and the mapping has shrunk by the
    number returned. *)
Theorem cancel_user_downloads_effect (user_id : Z) (rm : t) :
  let '(r, rm') := cancel_user_downloads user_id rm in
  r = Ok (user_active user_id (active_downloads rm)) /\
  user_active user_id (active_downloads rm') = 0 /\
  (forall u, u <> user_id ->
     user_active u (active_downloads rm') = user_active u (active_downloads rm)) /\
  (forall t u, active_downloads rm' !! t = Some u <->
               active_downloads rm !! t = Some u /\ u <> user_id) /\
  active_count (active_downloads rm') =
    active_count (active_downloads rm) - user_active user_id (active_downloads rm) /\
  max_concurrent_downloads rm' = max_concurrent_downloads rm /\
  max_downloads_per_user rm' = max_downloads_per_user rm.
Proof.
  rewrite cancel_user_downloads_unfold. cbv zeta.
  destruct (cancel_tasks_spec user_id (active_downloads rm)) as (Hnd & Hin & Hlen).
  set (tasks := (filter (fun kv : Z * Z => kv.2 = user_id)
                        (map_to_list (active_downloads rm))).*1) in *.
  destruct (foldl_delete_owned user_id tasks (active_downloads rm) Hnd) as [Hc Hu].
  { intros t Ht. apply Hin. exact Ht. }
  simpl. split; [rewrite Hlen; reflexivity|]. split.
  - rewrite Hu, decide_True by reflexivity. lia.
  - split.
    + intros u Hne. rewrite Hu, decide_False by congruence. lia.
    + split; [|split; [rewrite Hc; lia | split; reflexivity]].
      intros t u. rewrite RateLimiterFacts.lookup_foldl_delete.
      destruct (decide (t ∈ tasks)) as [Ht|Ht].
      * apply Hin in Ht. split; [discriminate|]. intros [H1 H2]. congruence.
      * split.
        -- intros Hlk. split; [exact Hlk|]. intros ->. apply Ht, Hin, Hlk.
        -- tauto.
Qed.

(** *** get_status *)

Lemma count_loop_lookup (l : list Z) : forall (acc : gmap Z Z) (u : Z),
  foldl count_step acc l !! u =
    let c := Z.of_nat (length (filter (fun uid => uid = u) l)) in
    if decide (c = 0) then acc !! u else Some (default 0 (acc !! u) + c).
Proof.
  induction l as [|x l IH]; intros acc u; [reflexivity|].
  simpl foldl. rewrite IH. rewrite filter_cons. unfold count_step.
  destruct (decide (x = u)) as [->|Hne]; cbn [length].
  - rewrite !lookup_insert_eq. simpl.
    repeat case_decide; try lia; f_equal; lia.
  - rewrite !lookup_insert_ne by congruence. reflexivity.
Qed.

Lemma count_loop_size (l : list Z) : forall acc : gmap Z Z,
  (size (foldl count_step acc l) <= size acc + length l)%nat.
Proof.
  induction l as [|x l IH]; intros acc; simpl; [lia|].
  pose proof (IH (count_step acc x)) as H.
  assert (size (count_step acc x) <= S (size acc))%nat as Hs.
  { unfold count_step. rewrite map_size_insert. destruct (acc !! x); simpl; lia. }
  lia.
Qed.

(** X11. The snapshot of [get_status] is consistent: it reports the size
    of the mapping and the global cap, the breakdown has an entry for
    exactly the users with an active download, holding their number of
    active downloads, and there are never more active users than active
    downloads. The manager is not changed. *)
Theorem get_status_consistent (rm : t) :
  let '(r, rm') := get_status rm in
  rm' = rm /\
  exists active max_downloads active_users user_breakdown,
    r = Ok (active, max_downloads, active_users, user_breakdown) /\
    active = active_count (active_downloads rm) /\
    max_downloads = max_concurrent_downloads rm /\
    active_users = Z.of_nat (size user_breakdown) /\
    active_users <= active /\
    forall u, user_breakdown !! u =
      if decide (user_active u (active_downloads rm) = 0) then None
      else Some (user_active u (active_downloads rm)).
Proof.
  unfold get_status, mbind, M_bind, mret, M_ret, get. simpl.
  split; [reflexivity|].
  eexists _, _, _, _. split; [reflexivity|].
  split; [reflexivity|]. split; [reflexivity|]. split; [reflexivity|].
  change (fun (user_counts : gmap Z Z) (user_id : Z) =>
            <[user_id := default 0 (user_counts !! user_id) + 1]> user_counts)
    with count_step.
  split.
  - pose proof (count_loop_size (map_to_list (active_downloads rm)).*2 ∅) as H.
    rewrite map_size_empty, length_fmap, length_map_to_list in H.
    unfold active_count. lia.
  - intros u. rewrite count_loop_lookup, lookup_empty. simpl.
    unfold user_active. repeat case_decide; try lia; f_equal; lia.
Qed.

(** *** Acquiring and holding a slot *)

(** X12. A granted acquisition stores the calling task with the user. If
    the task held no slot, the mapping grows by one, the user has one more
    active download and every other user as many as before. If the task
    already held a slot, that entry is replaced and the mapping does not
    grow. *)
Theorem granted_acquire_effect (current_task user_id : Z) (rm : t) :
  fst (download_slot_acquire current_task user_id rm) = Ok current_task ->
  let m := active_downloads rm in
  let m' := active_downloads (snd (download_slot_acquire current_task user_id rm)) in
  m' = <[current_task := user_id]> m /\
  (m !! current_task = None ->
     active_count m' = active_count m + 1 /\
     user_active user_id m' = user_active user_id m + 1 /\
     forall u, u <> user_id -> user_active u m' = user_active u m) /\
  (is_Some (m !! current_task) -> active_count m' = active_count m).
Proof.
  intros Hok m m'.
  assert (m' = <[current_task := user_id]> m) as Hm'.
  { unfold m', m. revert Hok. rewrite download_slot_acquire_unfold. simpl.
    repeat case_bool_decide; simpl; try discriminate. reflexivity. }
  split; [exact Hm'|]. rewrite Hm'. split.
  - intros Hfresh. split; [|split].
    + unfold active_count. rewrite map_size_insert_None by exact Hfresh. lia.
    + rewrite user_active_insert_None by exact Hfresh.
      rewrite decide_True by reflexivity. reflexivity.
    + intros u Hne. rewrite user_active_insert_None by exact Hfresh.
      rewrite decide_False by congruence. lia.
  - intros Hheld. unfold active_count.
    rewrite map_size_insert_Some by exact Hheld. reflexivity.
Qed.

Lemma granted_acquire_effect_witness :
  let rm := mk 10 2 {[ 1 := 7 ]} in
  let m := active_downloads rm in
  let m' := active_downloads (snd (download_slot_acquire 2 7 rm)) in
  m' = <[2 := 7]> m /\
  (m !! 2 = None ->
     active_count m' = active_count m + 1 /\
     user_active 7 m' = user_active 7 m + 1 /\
     forall u, u <> 7 -> user_active u m' = user_active u m) /\
  (is_Some (m !! 2) -> active_count m' = active_count m).
Proof.
  apply (granted_acquire_effect 2 7 (mk 10 2 {[ 1 := 7 ]})).
  vm_compute. reflexivity.
Defined.

(** X13. [download_slot] hands on what the protected block did: a value
    the block returns is returned, an exception the block raises is raised
    again, and in both cases the key of the calling task is gone from the
    mapping afterwards. *)
Theorem download_slot_passes_outcome {A : Type}
    (current_task user_id : Z) (body : M A) (rm : t) :
  fst (download_slot_acquire current_task user_id rm) = Ok current_task ->
  let rm1 := snd (download_slot_acquire current_task user_id rm) in
  (forall a, fst (body rm1) = Ok a ->
     fst (download_slot current_task user_id body rm) = Ok a) /\
  (forall e, fst (body rm1) = Raise e ->
     fst (download_slot current_task user_id body rm) = Raise e) /\
  active_downloads (snd (download_slot current_task user_id body rm))
    !! current_task = None.
Proof.
  intros Hok rm1.
  pose proof (download_slot_exit current_task user_id body rm Hok) as Hexit.
  destruct (download_slot current_task user_id body rm) as [r rm'].
  destruct Hexit as (Hr & _ & Hkey). simpl. fold rm1 in Hr.
  split; [|split]; [intros a Ha | intros e He | exact Hkey]; congruence.
Qed.

Lemma download_slot_passes_outcome_witness :
  let rm := init 10 2 in
  let body : M Z := raise (DownloadError "no video") in
  fst (download_slot 1 7 body rm) = Raise (DownloadError "no video") /\
  active_downloads (snd (download_slot 1 7 body rm)) !! 1 = None.
Proof.
  intros rm body.
  destruct (download_slot_passes_outcome 1 7 body rm) as (_ & Hraise & Hkey).
  - vm_compute. reflexivity.
  - split; [|exact Hkey]. apply Hraise. vm_compute. reflexivity.
Defined.

(** X14. The slot is given back: when the calling task holds no slot at
    entry and the protected block leaves the mapping as it found it, then
    after [download_slot], whether the block returned or raised, the mapping
    is the one before the acquisition, and every user has as many active
    downloads, and the manager as many in total, as before. *)
Theorem download_slot_gives_slot_back {A : Type}
    (current_task user_id : Z) (body : M A) (rm : t) :
  active_downloads rm !! current_task = None ->
  fst (download_slot_acquire current_task user_id rm) = Ok current_task ->
  (forall s, active_downloads (snd (body s)) = active_downloads s) ->
  let rm' := snd (download_slot current_task user_id body rm) in
  active_downloads rm' = active_downloads rm /\
  active_count (active_downloads rm') = active_count (active_downloads rm) /\
  forall u, fst (get_user_active_downloads u rm')
            = fst (get_user_active_downloads u rm).
Proof.
  intros Hfresh Hok Hbody rm'.
  destruct (download_slot_restores current_task user_id body rm Hfresh Hok Hbody)
    as [Hmap Hcount].
  fold rm' in Hmap, Hcount. split; [exact Hmap|]. split; [|exact Hcount].
  rewrite Hmap. reflexivity.
Qed.

Lemma download_slot_gives_slot_back_witness :
  let rm := mk 10 2 {[ 1 := 7 ]} in
  let body : M Z := raise (DownloadError "no video") in
  let rm' := snd (download_slot 2 7 body rm) in
  active_downloads rm' = active_downloads rm /\
  active_count (active_downloads rm') = active_count (active_downloads rm) /\
  forall u, fst (get_user_active_downloads u rm')
            = fst (get_user_active_downloads u rm).
Proof.
  apply (download_slot_gives_slot_back 2 7 (raise (DownloadError "no video") : M Z)
           (mk 10 2 {[ 1 := 7 ]})).
  - vm_compute. reflexivity.
  - vm_compute. reflexivity.
  - intros s. reflexivity.
Defined.

(** *** Many requests against the global cap *)

Lemma acquire_each_from (requests : list (Z * Z)) : forall rm : t,
  1 <= max_downloads_per_user rm ->
  active_count (active_downloads rm) <= max_concurrent_downloads rm ->
  NoDup requests.*1 -> NoDup requests.*2 ->
  (forall t u, (t, u) ∈ requests ->
     active_downloads rm !! t = None /\ user_active u (active_downloads rm) = 0) ->
  let free := Z.to_nat (max_concurrent_downloads rm
                        - active_count (active_downloads rm)) in
  let '(granted, rm') := acquire_each requests rm in
  granted = repeat true (Nat.min (length requests) free)
            ++ repeat false (length requests - free) /\
  active_count (active_downloads rm') =
    active_count (active_downloads rm)
    + Z.of_nat (Nat.min (length requests) free).
Proof.
  induction requests as [|[t u] rest IH]; intros rm Hp Hc Hnt Hnu Hfresh free.
  - simpl. split; [reflexivity | lia].
  - simpl acquire_each.
    rewrite fmap_cons in Hnt, Hnu. simpl in Hnt, Hnu.
    apply NoDup_cons in Hnt as [Ht Hnt]. apply NoDup_cons in Hnu as [Hu Hnu].
    destruct (Hfresh t u) as [Hmt Hmu]; [apply elem_of_cons; by left|].
    rewrite download_slot_acquire_unfold. cbv zeta.
    case_bool_decide as Hfull.
    + (* the cap is reached: this request and all later ones are refused *)
      assert (free = 0%nat) as Hfree by (unfold free; lia).
      specialize (IH rm Hp Hc Hnt Hnu).
      destruct (acquire_each rest rm) as [granted rm'].
      destruct IH as [Hg Hn].
      { intros t' u' Hin. apply Hfresh. apply elem_of_cons. by right. }
      fold free in Hg, Hn. rewrite Hfree in *. rewrite Nat.min_0_r in *.
      simpl in *. rewrite Nat.sub_0_r in Hg. split; [rewrite Hg; reflexivity | lia].
    + rewrite bool_decide_false by lia.
      set (rm1 := set_active (<[t := u]> (active_downloads rm)) rm).
      assert (active_count (active_downloads rm1)
              = active_count (active_downloads rm) + 1) as Hc1.
      { unfold rm1, active_count. simpl.
        rewrite map_size_insert_None by exact Hmt. lia. }
      specialize (IH rm1 Hp). simpl in IH.
      destruct (acquire_each rest rm1) as [granted rm'].
      destruct IH as [Hg Hn]; [simpl in Hc1; lia | exact Hnt | exact Hnu | |].
      { intros t' u' Hin.
        destruct (Hfresh t' u') as [Ht' Hu']; [apply elem_of_cons; by right|].
        assert (t' <> t) by (intros ->; apply Ht;
          apply list_elem_of_fmap; exists (t, u'); auto).
        assert (u' <> u) by (intros ->; apply Hu;
          apply list_elem_of_fmap; exists (t', u); auto).
        split.
        - rewrite lookup_insert_ne by congruence. exact Ht'.
        - rewrite user_active_insert_None by exact Hmt.
          rewrite decide_False by congruence. lia. }
      simpl in Hc1. rewrite Hc1 in Hg, Hn.
      assert (free = S (Z.to_nat (max_concurrent_downloads rm
                - (active_count (active_downloads rm) + 1)))) as Hfree
        by (unfold free; lia).
      rewrite Hfree. simpl. split; [rewrite Hg; reflexivity | lia].
Qed.

(** X15. Requests against the global cap: when tasks that are all different
    ask one after the other for a slot each, for users that are all
    different, on a new manager with a global cap [C >= 0] and a per-user
    cap of at least 1, exactly the first [C] requests are granted and the
    mapping ends with [min(N, C)] entries. *)
Theorem acquire_each_grants_up_to_cap
    (max_concurrent max_per_user : Z) (requests : list (Z * Z)) :
  0 <= max_concurrent -> 1 <= max_per_user ->
  NoDup requests.*1 -> NoDup requests.*2 ->
  let '(granted, rm) := acquire_each requests (init max_concurrent max_per_user) in
  granted = repeat true (Nat.min (length requests) (Z.to_nat max_concurrent))
            ++ repeat false (length requests - Z.to_nat max_concurrent) /\
  active_count (active_downloads rm)
    = Z.of_nat (Nat.min (length requests) (Z.to_nat max_concurrent)).
Proof.
  intros Hc Hp Hnt Hnu.
  pose proof (acquire_each_from requests (init max_concurrent max_per_user)) as H.
  simpl in H. unfold active_count in H. rewrite map_size_empty in H.
  simpl in H. rewrite Z.sub_0_r in H.
  destruct (acquire_each requests (init max_concurrent max_per_user)) as [granted rm].
  apply H; try assumption.
  intros t u _. split; [apply lookup_empty|].
  unfold user_active. rewrite map_to_list_empty. reflexivity.
Qed.

Lemma acquire_each_grants_up_to_cap_witness :
  let '(granted, rm) := acquire_each [(1, 11); (2, 12); (3, 13)] (init 2 1) in
  granted = repeat true (Nat.min 3 (Z.to_nat 2)) ++ repeat false (3 - Z.to_nat 2) /\
  active_count (active_downloads rm) = Z.of_nat (Nat.min 3 (Z.to_nat 2)).
Proof.
  apply (acquire_each_grants_up_to_cap 2 1 [(1, 11); (2, 12); (3, 13)]).
  - lia.
  - lia.
  - simpl. repeat (apply NoDup_cons; split; [rewrite ?elem_of_cons, elem_of_nil; lia|]).
    apply NoDup_nil_2.
  - simpl. repeat (apply NoDup_cons; split; [rewrite ?elem_of_cons, elem_of_nil; lia|]).
    apply NoDup_nil_2.
Defined.

End ResourceManagerExtFacts.

(** * Further properties of the admission path *)

Module BotExtFacts.
Import Bot BotExt.

Section Handlers.
Variable lib : collaborators.
Variable cfg : config.
Variable time : nat -> Q.

Ltac run_handler :=
  unfold request, handle_message, rate_limiter_check_limit,
    youtube_quality_menu, download_tiktok_instagram, ydl_extract_info,
    notify, emit, mbind, H_bind, mret, H_ret;
  cbn [limiter manager trace loading_steps];
  unfold notify, emit, mbind, H_bind, mret, H_ret;
  cbn [limiter manager trace fst snd app].

(** X16. A message without a link, or with a link that [validate] rejects,
    never reaches the extraction engine: the request ends with a notice and
    no [extract_info] call is made, with or without download. *)
Theorem no_valid_link_no_engine (user_id : Z) (message_text : string)
    (k : nat) (rl : RateLimiter.t) (rm : ResourceManager.t) :
  (extract_url lib message_text = None \/
   exists url, extract_url lib message_text = Some url /\
               fst (fst (validate lib url)) = false) ->
  existsb is_engine_event
    (trace (request lib cfg time user_id message_text k rl rm)) = false.
Proof.
  intros Hlink. run_handler.
  destruct (RateLimiter.check_limit time user_id (RateLimiter.World k rl))
    as [[allowed wait_time] rl1].
  destruct allowed; cbn [negb fst snd trace app]; [|reflexivity].
  destruct (_ || _); [reflexivity|].
  destruct Hlink as [->|(url & -> & Hbad)]; [reflexivity|].
  destruct (validate lib url) as [[is_valid platform] error_msg].
  simpl in Hbad. subst is_valid. reflexivity.
Qed.


(** X18. The video is handed to the user only when everything went well:
    the rate limiter allowed the request, the engine returned an info dict,
    a downloaded file was found, and its size exceeds neither
    [max_file_size] nor the Telegram limit. *)
Theorem video_sent_only_within_limits (user_id : Z) (message_text : string)
    (k : nat) (rl : RateLimiter.t) (rm : ResourceManager.t) :
  existsb is_video_sent
    (trace (request lib cfg time user_id message_text k rl rm)) = true ->
  fst (fst (RateLimiter.check_limit time user_id (RateLimiter.World k rl))) = true /\
  exists url file_size,
    extract_url lib message_text = Some url /\
    extract_info lib (sanitize lib url) true = YdlInfo true /\
    downloaded_file_size lib = Some file_size /\
    file_size <= max_file_size cfg /\
    file_size <= telegram_file_limit cfg.
Proof.
  run_handler.
  destruct (RateLimiter.check_limit time user_id (RateLimiter.World k rl))
    as [[allowed wait_time] rl1].
  destruct allowed; cbn [negb fst snd trace app]; [|discriminate].
  destruct (_ || _); [discriminate|].
  destruct (extract_url lib message_text) as [url|] eqn:Hurl; [|discriminate].
  destruct (validate lib url) as [[is_valid platform] error_msg].
  destruct is_valid; cbn [negb]; [|discriminate].
  destruct (is_youtube_url lib (sanitize lib url)).
  - cbn [limiter manager trace fst snd app].
    destruct (extract_info lib (sanitize lib url) false) as [[|]|msg|name];
      discriminate.
  - cbn [limiter manager trace fst snd app].
    destruct (extract_info lib (sanitize lib url) true) as [[|]|msg|name] eqn:Hinfo;
      try discriminate.
    destruct (downloaded_file_size lib) as [file_size|] eqn:Hfile;
      [|discriminate].
    repeat case_bool_decide; try discriminate.
    intros _. split; [reflexivity|].
    exists url, file_size.
    split; [reflexivity|]. split; [exact Hinfo|]. split; [reflexivity|]. lia.
Qed.

(** *** URLValidator *)

(** X19. The three answers of [validate] agree: a URL is valid exactly
    when a platform is given and no error message, and invalid exactly when
    no platform is given and an error message is. A valid URL, stripped, is
    at most 2048 characters long, parses with scheme http or https and a
    host, and matches a pattern of the platform given. *)
Theorem validate_answers_agree (url : string) :
  let '(is_valid, platform, error_message) := validate lib url in
  (is_valid = true ->
     error_message = None /\
     exists p parsed patterns,
       platform = Some p /\
       (String.length (str_strip lib url) <= 2048)%nat /\
       urlparse lib (str_strip lib url) = Ok parsed /\
       (scheme parsed = "http" \/ scheme parsed = "https") /\
       netloc parsed <> "" /\
       (p, patterns) ∈ PLATFORM_PATTERNS /\
       existsb (fun pattern => re_match_ignorecase lib pattern (str_strip lib url))
               patterns = true) /\
  (is_valid = false -> platform = None /\ exists msg, error_message = Some msg).
Proof.
  unfold validate.
  destruct (nonempty url); cbn [negb]; [|split; [discriminate | eauto]].
  destruct (2048 <? String.length (str_strip lib url))%nat eqn:Hlen;
    [split; [discriminate | eauto]|].
  apply Nat.ltb_ge in Hlen.
  destruct (urlparse lib (str_strip lib url)) as [parsed|e] eqn:Hparse;
    [|split; [discriminate | eauto]].
  destruct (nonempty (scheme parsed) && nonempty (netloc parsed)) eqn:Hparts;
    cbn [negb]; [|split; [discriminate | eauto]].
  destruct (bool_decide (scheme parsed = "http")
            || bool_decide (scheme parsed = "https")) eqn:Hscheme;
    cbn [negb]; [|split; [discriminate | eauto]].
  assert (forall pats,
    match detect_platform lib pats (str_strip lib url) with
    | Some p => exists patterns, (p, patterns) ∈ pats /\
        existsb (fun pattern => re_match_ignorecase lib pattern (str_strip lib url))
                patterns = true
    | None => True
    end) as Hdetect.
  { induction pats as [|[p ps] pats IH]; simpl; [exact I|].
    destruct (existsb _ ps) eqn:Hm.
    - exists ps. split; [apply elem_of_cons; by left | exact Hm].
    - destruct (detect_platform lib pats (str_strip lib url)); [|exact I].
      destruct IH as (patterns & Hin & Hmatch). exists patterns.
      split; [apply elem_of_cons; by right | exact Hmatch]. }
  specialize (Hdetect PLATFORM_PATTERNS).
  destruct (detect_platform lib PLATFORM_PATTERNS (str_strip lib url)) as [p|];
    [|split; [discriminate | eauto]].
  split; [|discriminate]. intros _. split; [reflexivity|].
  destruct Hdetect as (patterns & Hin & Hmatch).
  exists p, parsed, patterns. split; [reflexivity|]. split; [exact Hlen|].
  split; [reflexivity|]. split.
  - apply orb_true_iff in Hscheme as [H|H]; apply bool_decide_eq_true in H; auto.
  - split; [|split; assumption].
    apply andb_true_iff in Hparts as [_ Hnet]. unfold nonempty in Hnet.
    apply negb_true_iff, bool_decide_eq_false in Hnet. exact Hnet.
Qed.

(** X20. A URL belongs to at most one platform: of [is_youtube_url],
    [is_tiktok_url] and [is_instagram_url] no two hold together, and
    [is_valid_url] holds exactly when one of them does. *)
Theorem platforms_exclude_each_other (url : string) :
  is_valid_url lib url =
    is_youtube_url lib url || is_tiktok_url lib url || is_instagram_url lib url /\
  is_youtube_url lib url && is_tiktok_url lib url = false /\
  is_youtube_url lib url && is_instagram_url lib url = false /\
  is_tiktok_url lib url && is_instagram_url lib url = false.
Proof.
  unfold is_valid_url, is_youtube_url, is_tiktok_url, is_instagram_url,
    is_platform_url.
  assert (nonempty url = false -> fst (fst (validate lib url)) = false) as Hempty.
  { intros He. unfold validate. rewrite He. reflexivity. }
  assert (fst (fst (validate lib url)) = true ->
          exists p, snd (fst (validate lib url)) = Some p) as Hplat.
  { unfold validate.
    destruct (nonempty url); cbn [negb]; [|discriminate].
    destruct (2048 <? _)%nat; [discriminate|].
    destruct (urlparse lib _); [|discriminate].
    destruct (negb (_ && _)); [discriminate|].
    destruct (negb (_ || _)); [discriminate|].
    destruct (detect_platform _ _ _) as [p|]; [eauto | discriminate]. }
  destruct (validate lib url) as [[is_valid platform] error_message].
  simpl in *. destruct (nonempty url); cbn [negb].
  - destruct is_valid; simpl; [|repeat split].
    destruct (Hplat eq_refl) as [p ->]. destruct p; repeat split.
  - rewrite (Hempty eq_refl). repeat split.
Qed.

End Handlers.

Lemma no_valid_link_no_engine_witness :
  existsb is_engine_event
    (trace (request tiktok_run default_config (fun _ : nat => 0%Q)
                    42 "hello" 1 default_limiter (ResourceManager.init 10 2)))
    = false.
Proof.
  apply no_valid_link_no_engine. left. reflexivity.
Defined.

Lemma video_sent_only_within_limits_witness :
  fst (fst (RateLimiter.check_limit (fun _ : nat => 0%Q) 42
              (RateLimiter.World 1 default_limiter))) = true /\
  exists url file_size,
    extract_url tiktok_run tiktok_link = Some url /\
    extract_info tiktok_run (sanitize tiktok_run url) true = YdlInfo true /\
    downloaded_file_size tiktok_run = Some file_size /\
    file_size <= max_file_size default_config /\
    file_size <= telegram_file_limit default_config.
Proof.
  apply (video_sent_only_within_limits tiktok_run default_config
           (fun _ : nat => 0%Q) 42 tiktok_link 1 default_limiter
           (ResourceManager.init 10 2)).
  vm_compute. reflexivity.
Defined.

(** The same link with [v] in lower case keeps its parameter and gets the
    quality menu: the engine is asked for metadata only. *)
Example youtube_link_gets_quality_menu :
  let tr := trace (request youtube_run default_config (fun _ : nat => 0%Q)
                           42 youtube_link 1 default_limiter
                           (ResourceManager.init 10 2)) in
  existsb is_download tr = false /\
  existsb is_engine_event tr = true.
Proof. vm_compute. split; reflexivity. Qed.


End BotExtFacts.

(** * Properties of utils.py *)

Module UtilsFacts.
Import Utils.

Section Retry.
Context {A : Type}.
Variable max_attempts : Z.
Variable delay backoff : Q.
Variable retryable : exn -> bool.
Variable func : nat -> result A.

Lemma retry_loop_stops_at (j : nat) : forall remaining attempt d last,
  Z.of_nat (attempt + remaining) = max_attempts ->
  (j < remaining)%nat ->
  (forall i, (i < j)%nat -> fails_retryably retryable (func (attempt + i))) ->
  ~ fails_retryably retryable (func (attempt + j)) ->
  retry_loop max_attempts backoff retryable func remaining attempt d last =
    RetryRun (func (attempt + j)) (backoff_delays backoff j d) (S j).
Proof.
  induction j as [|j IH]; intros remaining attempt d last Hn Hj Hfail Hstop.
  - destruct remaining as [|remaining]; [lia|]. simpl.
    rewrite Nat.add_0_r in *.
    destruct (func attempt) as [a|e] eqn:Hf; [reflexivity|].
    destruct (retryable e) eqn:Hr; [|reflexivity].
    exfalso. apply Hstop. exists e. auto.
  - destruct remaining as [|remaining]; [lia|]. simpl.
    destruct (Hfail 0%nat) as (e & Hf & Hr); [lia|].
    rewrite Nat.add_0_r in Hf. rewrite Hf, Hr.
    rewrite bool_decide_true by lia.
    rewrite (IH remaining (S attempt) (d * backoff)%Q (Some e)).
    + simpl. rewrite Nat.add_succ_r. reflexivity.
    + lia.
    + lia.
    + intros i Hi. replace (S attempt + i)%nat with (attempt + S i)%nat by lia.
      apply Hfail. lia.
    + replace (S attempt + j)%nat with (attempt + S j)%nat by lia. exact Hstop.
Qed.

Lemma retry_loop_all_fail (remaining : nat) : forall attempt d last,
  Z.of_nat (attempt + S remaining) = max_attempts ->
  (forall i, (i <= remaining)%nat -> fails_retryably retryable (func (attempt + i))) ->
  retry_loop max_attempts backoff retryable func (S remaining) attempt d last =
    RetryRun (func (attempt + remaining)) (backoff_delays backoff remaining d)
             (S remaining).
Proof.
  induction remaining as [|remaining IH]; intros attempt d last Hn Hfail.
  - simpl. destruct (Hfail 0%nat) as (e & Hf & Hr); [lia|].
    rewrite Nat.add_0_r in *. rewrite Hf, Hr.
    rewrite bool_decide_false by lia. reflexivity.
  - destruct (Hfail 0%nat) as (e & Hf & Hr); [lia|].
    rewrite Nat.add_0_r in Hf.
    change (retry_loop max_attempts backoff retryable func (S (S remaining))
              attempt d last)
      with (match func attempt with
            | Ok a => RetryRun (Ok a) [] 1
            | Raise e =>
                if retryable e then
                  if bool_decide (Z.of_nat attempt < max_attempts - 1) then
                    let r := retry_loop max_attempts backoff retryable func
                               (S remaining) (S attempt) (d * backoff)%Q (Some e) in
                    RetryRun (outcome r) (d :: sleeps r) (S (calls r))
                  else
                    let r := retry_loop max_attempts backoff retryable func
                               (S remaining) (S attempt) d (Some e) in
                    RetryRun (outcome r) (sleeps r) (S (calls r))
                else RetryRun (Raise e) [] 1
            end).
    rewrite Hf, Hr. rewrite bool_decide_true by lia.
    rewrite (IH (S attempt) (d * backoff)%Q (Some e)).
    + simpl. rewrite Nat.add_succ_r. reflexivity.
    + lia.
    + intros i Hi. replace (S attempt + i)%nat with (attempt + S i)%nat by lia.
      apply Hfail. lia.
Qed.

(** X21. [async_retry] stops at the first call that returns or that raises
    an exception it does not retry: when call number [j] (counted from 0,
    [j < max_attempts]) is the first such call, the wrapper ends as that
    call ended, after [j + 1] calls and [j] sleeps of [delay],
    [delay * backoff], [delay * backoff^2], ... *)
Theorem async_retry_stops_at_first_result (j : nat) :
  Z.of_nat j < max_attempts ->
  (forall i, (i < j)%nat -> fails_retryably retryable (func i)) ->
  ~ fails_retryably retryable (func j) ->
  async_retry max_attempts delay backoff retryable func =
    RetryRun (func j) (backoff_delays backoff j delay) (S j).
Proof.
  intros Hj Hfail Hstop. unfold async_retry.
  apply (retry_loop_stops_at j (Z.to_nat max_attempts) 0%nat delay None);
    simpl; try assumption; lia.
Qed.

(** X22. When all [max_attempts >= 1] calls fail with exceptions that are
    retried, the wrapper raises the exception of the last call, after
    exactly [max_attempts] calls and [max_attempts - 1] sleeps: it does not
    sleep after the last failure. *)
Theorem async_retry_gives_up (n : nat) :
  max_attempts = Z.of_nat (S n) ->
  (forall i, (i <= n)%nat -> fails_retryably retryable (func i)) ->
  async_retry max_attempts delay backoff retryable func =
    RetryRun (func n) (backoff_delays backoff n delay) (S n).
Proof.
  intros Hn Hfail. unfold async_retry.
  replace (Z.to_nat max_attempts) with (S n) by lia.
  apply (retry_loop_all_fail n 0%nat delay None); simpl; [lia | exact Hfail].
Qed.

Lemma retry_loop_bounds (remaining : nat) : forall attempt d last,
  Z.of_nat (attempt + remaining) = Z.max 0 max_attempts ->
  let r := retry_loop max_attempts backoff retryable func remaining attempt d last in
  (calls r <= remaining)%nat /\ (length (sleeps r) <= pred (calls r))%nat.
Proof.
  induction remaining as [|remaining IH]; intros attempt d last Hn; simpl.
  - split; lia.
  - destruct (func attempt) as [a|e]; simpl; [split; lia|].
    destruct (retryable e); simpl; [|split; lia].
    case_bool_decide as Hlt; simpl.
    + destruct remaining as [|remaining']; [lia|].
      destruct (IH (S attempt) (d * backoff)%Q (Some e)) as [Hc Hs]; [lia|].
      split; [lia|].
      assert (1 <= calls (retry_loop max_attempts backoff retryable func
                            (S remaining') (S attempt) (d * backoff)%Q (Some e)))%nat.
      { simpl. destruct (func (S attempt)) as [a|e']; simpl; [lia|].
        destruct (retryable e'); simpl; [|lia]. case_bool_decide; simpl; lia. }
      lia.
    + destruct (IH (S attempt) d (Some e)) as [Hc Hs]; [lia|]. split; lia.
Qed.

(** X23. [async_retry] never calls the function more than [max_attempts]
    times and always sleeps fewer times than it calls. With
    [max_attempts <= 0] the function is not called at all, and the wrapper
    fails on raising [None]. *)
Theorem async_retry_bounds :
  let r := async_retry max_attempts delay backoff retryable func in
  (calls r <= Z.to_nat max_attempts)%nat /\
  (length (sleeps r) <= pred (calls r))%nat /\
  (max_attempts <= 0 -> r = RetryRun (Raise raise_none) [] 0).
Proof.
  intros r. unfold r, async_retry.
  destruct (retry_loop_bounds (Z.to_nat max_attempts) 0%nat delay None) as [Hc Hs];
    [lia|].
  split; [exact Hc|]. split; [exact Hs|].
  intros Hle. replace (Z.to_nat max_attempts) with 0%nat by lia. reflexivity.
Qed.

End Retry.

(** A call that fails twice with a timeout and then succeeds, under three
    attempts with a delay of 1 s that doubles. *)
Lemma async_retry_stops_at_first_result_witness :
  let func := fun i : nat =>
    if (i <? 2)%nat then Raise (TimeoutError "timed out") else Ok 42 in
  async_retry 3 1 2 (fun _ => true) func =
    RetryRun (func 2%nat) (backoff_delays 2 2 1) 3.
Proof.
  intros func.
  apply (async_retry_stops_at_first_result 3 1 2 (fun _ => true) func 2).
  - lia.
  - intros i Hi. exists (TimeoutError "timed out"). split; [|reflexivity].
    unfold func. destruct i as [|[|i]]; [reflexivity | reflexivity | lia].
  - intros (e & He & _). discriminate He.
Defined.

Lemma async_retry_gives_up_witness :
  let func : nat -> result Z := fun _ => Raise (TimeoutError "timed out") in
  async_retry 3 1 2 (fun _ => true) func =
    RetryRun (func 2%nat) (backoff_delays 2 2 1) 3.
Proof.
  intros func.
  apply (async_retry_gives_up 3 1 2 (fun _ => true) func 2).
  - reflexivity.
  - intros i _. exists (TimeoutError "timed out"). split; reflexivity.
Defined.

Lemma async_retry_bounds_witness :
  let func : nat -> result Z := fun _ => Ok 1 in
  async_retry 0 1 2 (fun _ => true) func = RetryRun (Raise raise_none) [] 0.
Proof.
  intros func.
  destruct (async_retry_bounds 0 1 2 (fun _ => true) func) as (_ & _ & Hzero).
  apply Hzero. lia.
Defined.

(** *** find_downloaded_file *)

Section FindFile.
Variable path_join : string -> string -> string.

Lemma first_valid_file_spec (temp_dir : string) (extensions : list string)
    (files : list dir_entry) :
  match first_valid_file path_join temp_dir extensions files with
  | Some filepath =>
      exists before file after,
        files = before ++ file :: after /\
        Forall (fun f => acceptable extensions f = false) before /\
        acceptable extensions file = true /\
        filepath = path_join temp_dir (entry_name file)
  | None => Forall (fun f => acceptable extensions f = false) files
  end.
Proof.
  induction files as [|f files IH]; simpl; [constructor|].
  assert (acceptable extensions f = false ->
          match first_valid_file path_join temp_dir extensions files with
          | Some filepath =>
              exists before file after,
                f :: files = before ++ file :: after /\
                Forall (fun f => acceptable extensions f = false) before /\
                acceptable extensions file = true /\
                filepath = path_join temp_dir (entry_name file)
          | None => Forall (fun f => acceptable extensions f = false) (f :: files)
          end) as Hskip.
  { intros Hf. destruct (first_valid_file path_join temp_dir extensions files).
    - destruct IH as (before & file & after & -> & Hb & Ha & ->).
      exists (f :: before), file, after. repeat split; auto.
    - constructor; assumption. }
  destruct (existsb (fun ext => ends_with ext (entry_name f)) extensions) eqn:Hext;
    [|apply Hskip; unfold acceptable; rewrite Hext; reflexivity].
  destruct (entry_is_file f) eqn:Hfile;
    [|apply Hskip; unfold acceptable; rewrite Hext, Hfile; reflexivity].
  case_bool_decide as Hsize.
  - exists [], f, files. repeat split; [constructor|].
    unfold acceptable. rewrite Hext, Hfile, bool_decide_true by exact Hsize.
    reflexivity.
  - apply Hskip. unfold acceptable.
    rewrite Hext, Hfile, bool_decide_false by exact Hsize. reflexivity.
Qed.

(** X24. [find_downloaded_file] returns the path of the first entry of the
    listing that has one of the extensions, is a regular file and has a
    size above 0; it returns [None] exactly when the directory is missing,
    is not a directory, cannot be listed, or has no such entry. A file that
    is empty, or whose size cannot be read, is never returned. *)
Theorem find_downloaded_file_spec (temp_dir : string) (state : dir_state)
    (extensions : list string) :
  match find_downloaded_file path_join temp_dir state extensions with
  | Some filepath =>
      exists before file after size,
        state = Listing (before ++ file :: after) /\
        Forall (fun f => acceptable extensions f = false) before /\
        filepath = path_join temp_dir (entry_name file) /\
        existsb (fun ext => ends_with ext (entry_name file)) extensions = true /\
        entry_is_file file = true /\
        entry_getsize file = Some size /\ 0 < size
  | None =>
      forall files, state = Listing files ->
        Forall (fun f => acceptable extensions f = false) files
  end.
Proof.
  destruct state as [| | |files]; simpl; try discriminate.
  pose proof (first_valid_file_spec temp_dir extensions files) as Hspec.
  destruct (first_valid_file path_join temp_dir extensions files).
  - destruct Hspec as (before & file & after & -> & Hb & Ha & ->).
    unfold acceptable in Ha.
    apply andb_true_iff in Ha as [Ha Hsize].
    apply andb_true_iff in Ha as [Hext Hfile].
    apply bool_decide_eq_true in Hsize. unfold get_file_size in Hsize.
    destruct (entry_getsize file) as [size|] eqn:Hg; simpl in Hsize; [|lia].
    exists before, file, after, size. repeat split; auto. lia.
  - intros files' [= <-]. exact Hspec.
Qed.

End FindFile.

End UtilsFacts.

(** * Properties of InputSanitizer *)

Module InputSanitizerFacts.
Import InputSanitizer.

Lemma Forall_slice_to (P : N -> Prop) (s : list N) (k : Z) :
  Forall P s -> Forall P (slice_to s k).
Proof. intros H. unfold slice_to. case_bool_decide; by apply Forall_take. Qed.

Lemma filter_all {A} (P : A -> Prop) `{!forall x, Decision (P x)} (l : list A) :
  Forall P l -> filter P l = l.
Proof.
  induction 1 as [|x l Hx Hl IH]; [reflexivity|].
  rewrite filter_cons, decide_True by exact Hx. rewrite IH. reflexivity.
Qed.

Lemma Forall_filter_holds {A} (P : A -> Prop) `{!forall x, Decision (P x)}
    (l : list A) :
  Forall P (filter P l).
Proof. apply Forall_forall. intros x Hx. by apply list_elem_of_filter in Hx as [? _]. Qed.

Lemma kept_in_text_spec (c : N) :
  kept_in_text c = true <-> ((32 <= c)%N \/ c = 10%N \/ c = 9%N).
Proof.
  unfold kept_in_text. rewrite !orb_true_iff, N.leb_le, !N.eqb_eq. tauto.
Qed.

(** The text that [sanitize_text] keeps before it looks at the length. *)
Lemma sanitize_text_cases (text : list N) (max_length : Z) :
  text = [] /\ sanitize_text text max_length = [] \/
  exists kept,
    Forall (fun c => kept_in_text c = true) kept /\
    (sanitize_text text max_length = kept /\ Z.of_nat (length kept) <= max_length \/
     sanitize_text text max_length = slice_to kept (max_length - 3) ++ dots /\
     Z.of_nat (length kept) > max_length).
Proof.
  destruct text as [|c text]; [left; split; reflexivity|]. right.
  unfold sanitize_text.
  set (kept := filter (fun c => (32 <= c)%N \/ c = 10%N \/ c = 9%N)
                 (filter (fun c => c <> 0%N) (c :: text))).
  exists kept. split.
  - eapply Forall_impl; [apply Forall_filter_holds|].
    intros x Hx. apply kept_in_text_spec. exact Hx.
  - case_bool_decide; [right | left]; split; auto; lia.
Qed.

Lemma sanitize_text_clean_and_short_lemma (text : list N) (max_length : Z) :
  Forall (fun c => kept_in_text c = true) (sanitize_text text max_length) /\
  (3 <= max_length ->
   Z.of_nat (length (sanitize_text text max_length)) <= max_length).
Proof.
  destruct (sanitize_text_cases text max_length)
    as [[_ ->]|(kept & Hp & [[-> Hlen]|[-> Hlen]])].
  - split; [constructor | simpl; lia].
  - split; [exact Hp | intros _; exact Hlen].
  - split.
    + apply Forall_app. split; [by apply Forall_slice_to|].
      repeat constructor.
    + intros Hmax. rewrite length_app. unfold slice_to.
      rewrite bool_decide_true by lia. rewrite length_take. simpl. lia.
Qed.

(** X25. What [sanitize_text] returns holds no character with a code
    point below 32 other than newline and tab, and, for a [max_length] of
    at least 3, is not longer than [max_length]. Code points of 32 and
    above, DEL and U+0080 to U+009F among them, are not filtered. *)
Theorem sanitize_text_clean_and_short (text : list N) (max_length : Z) :
  Forall (fun c => kept_in_text c = true) (sanitize_text text max_length) /\
  (3 <= max_length ->
   Z.of_nat (length (sanitize_text text max_length)) <= max_length).
Proof. exact (sanitize_text_clean_and_short_lemma text max_length). Qed.

Lemma sanitize_text_fixed (r : list N) (max_length : Z) :
  Forall (fun c => kept_in_text c = true) r ->
  Z.of_nat (length r) <= max_length ->
  sanitize_text r max_length = r.
Proof.
  intros Hp Hlen. destruct r as [|c r]; [reflexivity|]. unfold sanitize_text.
  rewrite (filter_all (fun c => c <> 0%N)).
  - rewrite (filter_all (fun c => (32 <= c)%N \/ c = 10%N \/ c = 9%N)).
    + rewrite bool_decide_false by lia. reflexivity.
    + eapply Forall_impl; [exact Hp|]. intros x Hx. apply kept_in_text_spec. exact Hx.
  - eapply Forall_impl; [exact Hp|]. intros x Hx.
    apply kept_in_text_spec in Hx. lia.
Qed.

(** X26. For a [max_length] of at least 3, sanitizing a text twice gives
    what sanitizing it once gives. *)
Theorem sanitize_text_idempotent (text : list N) (max_length : Z) :
  3 <= max_length ->
  sanitize_text (sanitize_text text max_length) max_length
    = sanitize_text text max_length.
Proof.
  intros Hmax.
  destruct (sanitize_text_clean_and_short_lemma text max_length) as [Hp Hlen].
  apply sanitize_text_fixed; [exact Hp | exact (Hlen Hmax)].
Qed.

Lemma sanitize_text_clean_and_short_witness :
  Forall (fun c => kept_in_text c = true) (sanitize_text [72; 0; 105; 7; 33; 33]%N 3) /\
  Z.of_nat (length (sanitize_text [72; 0; 105; 7; 33; 33]%N 3)) <= 3.
Proof.
  destruct (sanitize_text_clean_and_short [72; 0; 105; 7; 33; 33]%N 3) as [Hp Hlen].
  split; [exact Hp | apply Hlen; lia].
Defined.

Lemma sanitize_text_idempotent_witness :
  sanitize_text (sanitize_text [72; 0; 105; 7; 33; 33]%N 3) 3
    = sanitize_text [72; 0; 105; 7; 33; 33]%N 3.
Proof. apply sanitize_text_idempotent. lia. Defined.

(** DEL and the control characters from U+0080 on stay in the text. *)
Example sanitize_text_keeps_del :
  sanitize_text [97; 127; 155; 98]%N 4096 = [97; 127; 155; 98]%N.
Proof. reflexivity. Qed.

(** Below 3 the bound is lost: the slice [text[:max_length - 3]] then
    counts from the end, and with [max_length = 2] a text of ten
    characters comes back with twelve. *)
Example sanitize_text_limit_below_3 :
  length (sanitize_text (repeat 97%N 10) 2) = 12%nat.
Proof. reflexivity. Qed.

(** *** sanitize_filename *)

Section Filename.
Variable is_space : N -> bool.

Lemma Forall_lstrip (P : N -> Prop) (chars s : list N) :
  Forall P s -> Forall P (lstrip chars s).
Proof.
  induction 1 as [|c s Hc Hs IH]; simpl; [constructor|].
  case_bool_decide; [exact IH | by constructor].
Qed.

Lemma Forall_strip (P : N -> Prop) (chars s : list N) :
  Forall P s -> Forall P (strip chars s).
Proof.
  intros H. unfold strip. apply Forall_reverse, Forall_lstrip, Forall_reverse.
  by apply Forall_lstrip.
Qed.

Lemma Forall_collapse_runs (P : N -> Prop) (s : list N) : forall in_run,
  P 95%N -> Forall P s -> Forall P (collapse_runs is_space in_run s).
Proof.
  induction s as [|c s IH]; intros in_run H95 Hs; simpl; [constructor|].
  apply Forall_cons in Hs as [Hc Hs].
  destruct (is_space c || (c =? 95)%N).
  - destruct in_run; [|constructor]; auto.
  - constructor; auto.
Qed.

Lemma Forall_split_dot (P : N -> Prop) (s : list N) : forall before after,
  split_dot s = Some (before, after) -> Forall P s ->
  Forall P before /\ Forall P after.
Proof.
  induction s as [|c s IH]; intros before after Hsplit Hs; [discriminate|].
  apply Forall_cons in Hs as [Hc Hs]. simpl in Hsplit.
  destruct (c =? 46)%N.
  - injection Hsplit as <- <-. split; [constructor | exact Hs].
  - destruct (split_dot s) as [[b a]|]; [|discriminate].
    injection Hsplit as <- <-. destruct (IH b a eq_refl Hs). split; auto.
Qed.

Lemma Forall_rsplit_dot (P : N -> Prop) (s : list N) :
  Forall P s -> Forall P (fst (rsplit_dot s)) /\ Forall P (snd (rsplit_dot s)).
Proof.
  intros Hs. unfold rsplit_dot.
  destruct (split_dot (reverse s)) as [[rev_ext rev_name]|] eqn:Hsplit; simpl.
  - destruct (Forall_split_dot P (reverse s) rev_ext rev_name Hsplit)
      as [He Hn]; [by apply Forall_reverse|].
    split; by apply Forall_reverse.
  - split; [exact Hs | constructor].
Qed.

Lemma replace_separators (s : list N) :
  Forall (fun c => c <> 47%N /\ c <> 92%N)
         (replace_char 92 95 (replace_char 47 95 s)).
Proof.
  unfold replace_char. rewrite <- list_fmap_compose. apply Forall_fmap.
  apply Forall_forall. intros c _. simpl.
  destruct (N.eqb_spec c 47) as [->|H47]; [split; discriminate|].
  destruct (N.eqb_spec c 92) as [->|H92]; [split; discriminate|].
  split; assumption.
Qed.

Lemma replace_invalid_chars (s : list N) :
  Forall no_separator s ->
  Forall (fun c => allowed_in_filename c = true)
         (foldl (fun s char => replace_char char 95 s) s invalid_chars).
Proof.
  intros Hs. simpl. unfold replace_char. rewrite <- !list_fmap_compose.
  apply Forall_fmap. eapply Forall_impl; [exact Hs|].
  intros c (H32 & H47 & H92). simpl. unfold allowed_in_filename.
  repeat match goal with
  | |- context [(?x =? ?y)%N] =>
      destruct (N.eqb_spec x y) as [->|?]; try reflexivity
  end.
  apply andb_true_iff. split; [by apply N.leb_le|].
  apply negb_true_iff, bool_decide_eq_false.
  rewrite !elem_of_cons, elem_of_nil. intuition congruence.
Qed.

(** X27. What [sanitize_filename] returns is never empty and holds no
    character with a code point below 32, no slash, no backslash and none
    of the seven characters that are invalid in Windows file names,
    whatever the file name given and whatever [max_length]. The test for
    control characters is [ord(char) >= 32], which DEL (127) and the code
    points from U+0080 on pass. *)
Theorem sanitize_filename_safe (filename : list N) (max_length : Z) :
  let r := sanitize_filename is_space filename max_length in
  r <> [] /\ Forall (fun c => allowed_in_filename c = true) r.
Proof.
  assert (Forall (fun c => allowed_in_filename c = true) download) as Hd
    by (repeat constructor).
  intros r. unfold r, sanitize_filename.
  destruct filename as [|c0 filename0]; [split; [discriminate | exact Hd]|].
  set (filename := c0 :: filename0).
  set (cleaned := foldl (fun s char => replace_char char 95 s)
         (collapse_runs is_space false
            (strip [46; 32]%N
               (filter (fun c => (32 <= c)%N)
                  (replace_char 92 95 (replace_char 47 95 filename)))))
         invalid_chars).
  assert (Forall (fun c => allowed_in_filename c = true) cleaned) as Hclean.
  { apply replace_invalid_chars.
    apply Forall_collapse_runs; [repeat split; discriminate|].
    apply Forall_strip. apply Forall_forall. intros c Hc.
    apply list_elem_of_filter in Hc as [H32 Hc].
    pose proof (replace_separators filename) as Hsep.
    rewrite Forall_forall in Hsep. destruct (Hsep c Hc). repeat split; assumption. }
  match goal with |- context [if ?b then ?t else cleaned] =>
    assert (Forall (fun c => allowed_in_filename c = true) (if b then t else cleaned))
      as Hcut; [|generalize dependent (if b then t else cleaned)] end.
  { case_bool_decide; [|exact Hclean].
    destruct (Forall_rsplit_dot (fun c => allowed_in_filename c = true) cleaned Hclean)
      as [Hname Hext].
    destruct (rsplit_dot cleaned) as [name ext]. simpl in Hname, Hext.
    apply Forall_app. split; [by apply Forall_slice_to|].
    destruct ext; [constructor|]. constructor; [reflexivity | exact Hext]. }
  intros l Hl. split.
  - destruct l as [|c [|c' l]]; [discriminate| |].
    + destruct c as [|p]; [discriminate|].
      repeat (destruct p as [p|p|]; try discriminate).
    + destruct c as [|p]; [discriminate|].
      repeat (destruct p as [p|p|]; try discriminate).
  - destruct l as [|c [|c' l]]; [exact Hd| |].
    + destruct c as [|p]; [exact Hl|].
      repeat (destruct p as [p|p|]; try exact Hl). exact Hd.
    + destruct c as [|p]; [exact Hl|].
      repeat (destruct p as [p|p|]; try exact Hl).
Qed.

(** DEL stays in a file name. *)
Example sanitize_filename_keeps_del :
  is_space 97 = false -> is_space 127 = false -> is_space 98 = false ->
  sanitize_filename is_space [97; 127; 98]%N 200 = [97; 127; 98]%N.
Proof.
  intros Ha Hdel Hb. unfold sanitize_filename.
  vm_compute. rewrite Ha, Hdel, Hb. reflexivity.
Qed.

End Filename.

End InputSanitizerFacts.

(** * Properties of the progress display *)

Module ProgressFacts.
Import Progress.

Local Open Scope Q_scope.

Lemma clamp_in_range (x : Q) : in_percent_range (Qmin 100 (Qmax 0 x)).
Proof.
  split.
  - apply Q.min_glb; [discriminate | apply Q.le_max_l].
  - apply Q.le_min_l.
Qed.

Lemma progress_hook_in_range (d : hook_dict) (p : t) :
  in_percent_range (percent p) -> in_percent_range (percent (progress_hook d p)).
Proof.
  intros Hp. unfold progress_hook.
  destruct (d_status d) as [st|]; [|exact Hp].
  destruct (String.eqb st "downloading").
  - destruct (py_or _ _) as [|total_bytes]; [exact Hp|].
    destruct (negb (Qle_bool total_bytes 0)); [|split; discriminate].
    destruct (get_default _ _) as [|downloaded_bytes]; [exact Hp|].
    apply clamp_in_range.
  - destruct (String.eqb st "finished"); [|exact Hp].
    split; discriminate.
Qed.

Lemma after_hooks_in_range (ds : list hook_dict) :
  in_percent_range (percent (after_hooks ds)).
Proof.
  unfold after_hooks.
  assert (forall p, in_percent_range (percent p) ->
            in_percent_range (percent (foldl (fun p d => progress_hook d p) p ds)))
    as Hall.
  { induction ds as [|d ds IH]; intros p Hp; simpl; [exact Hp|].
    apply IH. apply progress_hook_in_range. exact Hp. }
  apply Hall. split; discriminate.
Qed.

(** X28. Whatever dicts the download hook is called with, in whatever
    order, also dicts with missing keys, with [None] values or with more
    bytes downloaded than the total, the percentage of a [DownloadProgress]
    stays between 0 and 100. *)
Theorem percent_always_in_range (ds : list hook_dict) :
  0 <= percent (after_hooks ds) /\ percent (after_hooks ds) <= 100.
Proof. exact (after_hooks_in_range ds). Qed.

Lemma int_of_float_floor (x : Q) : 0 <= x -> Bot.int_of_float x = Qfloor x.
Proof.
  intros Hx. unfold Bot.int_of_float. destruct x as [n d]. simpl.
  apply Z.quot_div_nonneg; [|lia].
  unfold Qle in Hx. simpl in Hx. lia.
Qed.

Lemma filled_bounds (percent : Q) (length : Z) :
  0 <= percent -> percent <= 100 -> (0 <= length)%Z ->
  (0 <= Bot.int_of_float (inject_Z length * percent / 100) <= length)%Z.
Proof.
  intros H0 H100 Hlen.
  assert (0 <= inject_Z length) as Hl
    by (change 0 with (inject_Z 0); rewrite <- Zle_Qle; exact Hlen).
  assert (0 <= inject_Z length * percent / 100) as Hx0.
  { apply Qle_shift_div_l; [reflexivity|]. rewrite Qmult_0_l.
    apply Qmult_le_0_compat; assumption. }
  assert (inject_Z length * percent / 100 <= inject_Z length) as Hx1.
  { apply Qle_shift_div_r; [reflexivity|].
    rewrite (Qmult_comm (inject_Z length) percent),
      (Qmult_comm (inject_Z length) 100).
    apply Qmult_le_compat_r; assumption. }
  rewrite int_of_float_floor by exact Hx0. split.
  - change 0%Z with (Qfloor 0). apply Qfloor_resp_le. exact Hx0.
  - apply Qfloor_resp_le in Hx1. rewrite Qfloor_Z in Hx1. exact Hx1.
Qed.

Lemma create_progress_bar_cells (percent : Q) (length : Z) :
  0 <= percent -> percent <= 100 -> (0 <= length)%Z ->
  let filled := Qfloor (inject_Z length * percent / 100) in
  create_progress_bar percent length =
    repeat green (Z.to_nat filled) ++ repeat white (Z.to_nat (length - filled)) /\
  Z.of_nat (List.length (create_progress_bar percent length)) = length.
Proof.
  intros H0 H100 Hlen filled.
  pose proof (filled_bounds percent length H0 H100 Hlen) as Hf.
  assert (0 <= inject_Z length * percent / 100) as Hx0.
  { apply Qle_shift_div_l; [reflexivity|]. rewrite Qmult_0_l.
    apply Qmult_le_0_compat; [|exact H0].
    change 0 with (inject_Z 0). rewrite <- Zle_Qle. exact Hlen. }
  unfold create_progress_bar, py_repeat.
  rewrite int_of_float_floor in * by exact Hx0. fold filled in Hf |- *.
  split; [reflexivity|].
  rewrite length_app, !repeat_length. lia.
Qed.

(** X29. For a percentage between 0 and 100 and a length that is not
    negative, the bar of [create_progress_bar] has exactly [length] cells:
    first the green ones, as many as the whole part of
    [length * percent / 100], then the white ones. *)
Theorem create_progress_bar_length (percent : Q) (length : Z) :
  0 <= percent -> percent <= 100 -> (0 <= length)%Z ->
  let filled := Qfloor (inject_Z length * percent / 100) in
  create_progress_bar percent length =
    repeat green (Z.to_nat filled) ++ repeat white (Z.to_nat (length - filled)) /\
  Z.of_nat (List.length (create_progress_bar percent length)) = length.
Proof. exact (create_progress_bar_cells percent length). Qed.

Lemma create_progress_bar_length_witness :
  let filled := Qfloor (inject_Z 10 * (75 # 2) / 100) in
  create_progress_bar (75 # 2) 10 =
    repeat green (Z.to_nat filled) ++ repeat white (Z.to_nat (10 - filled)) /\
  Z.of_nat (List.length (create_progress_bar (75 # 2) 10)) = 10%Z.
Proof.
  apply (create_progress_bar_length (75 # 2) 10); [discriminate | discriminate | lia].
Defined.

(** X30. The bar shown during a download always has its ten cells: after
    any sequence of hook calls, [create_progress_bar(progress.percent)]
    with the default length is ten cells long. *)
Theorem progress_bar_of_download_has_ten_cells (ds : list hook_dict) :
  List.length (create_progress_bar (percent (after_hooks ds)) 10) = 10%nat.
Proof.
  destruct (after_hooks_in_range ds) as [H0 H100].
  destruct (create_progress_bar_cells (percent (after_hooks ds)) 10 H0 H100)
    as [_ Hlen]; [lia|].
  lia.
Qed.

(** Outside that range the bar is not [length] cells long: at 150 percent
    it has fifteen green cells. *)
Example create_progress_bar_above_100 :
  create_progress_bar 150 10 = repeat green 15.
Proof. reflexivity. Qed.

End ProgressFacts.
